(** * cpplox: the bytecode virtual machine

    A shallow embedding of [bytecode_vm/value.cpp] ([print_value]) and
    [bytecode_vm/vm.cpp] (the visitors and [VM::run]), and the properties
    of the instruction set proved about it.

    Conventions of the embedding.
    - A [double] is an IEEE 754 binary64 number: Rocq's primitive [float].
    - A byte of [chunk.code] is a [Byte.byte]; an offset into the code is
      a [Z], so that the pointer arithmetic of [ip_] is written as it is
      in the source, with no truncation at zero.
    - [stack_] is a vector: a list whose head is the bottom of the stack;
      [push_back], [back] and [pop_back] work at its end and [at] indexes
      from the bottom.
    - [globals_] is a finite map from names to values.
    - [std::cout] is the text written so far.
    - An instruction ends normally, throws a C++ exception, or has
      undefined behaviour ([back] or [pop_back] on an empty vector, a read
      past the end of the code).  Two things are not marked: the cast
      through which a jump reads its operand, and a jump target outside
      the code, which is computed as a number.
    - A primitive [float] has one NaN, with no sign: a NaN is printed as
      [nan], where the program prints [nan] or [-nan]. *)

From Stdlib Require Import ZArith QArith Qabs Qpower Lia Lqa List Ascii String Floats.
From Stdlib.Strings Require Import Byte.
From stdpp Require Import base option list strings gmap.

Local Open Scope Z_scope.

(** ** Values *)

(** [Value] wraps a [boost::variant] over [std::string], [double], [bool]
    and [nullptr_t] (the alternatives the visitors below are written for). *)
Inductive Value : Type :=
| Str (value : string)
| Num (value : float)
| Bool (value : bool)
| Nil.

(** The alternative a variant currently holds. *)
Inductive Which : Type := which_string | which_double | which_bool | which_nullptr_t.

Definition which (v : Value) : Which :=
  match v with
  | Str _ => which_string
  | Num _ => which_double
  | Bool _ => which_bool
  | Nil => which_nullptr_t
  end.

(** ** Insertion of a [double] into an output stream

    [os << value] on a stream in its default state ([floatfield] unset,
    precision 6; nothing in the sources changes either) converts as
    [printf("%g")] does: at most [precision] significant digits, fixed
    notation when the decimal exponent [X] satisfies [-4 <= X < precision]
    and scientific notation otherwise, trailing zeros and a bare decimal
    point removed.  The rounding is to nearest, ties to even, on the exact
    binary value. *)

Definition default_precision : Z := 6.

Definition digit_char (d : Z) : ascii := ascii_of_N (Z.to_N (48 + d)).

(** The [n] low decimal digits of [d], most significant first. *)
Fixpoint decimal_digits (n : nat) (d : Z) : list Z :=
  match n with
  | O => []
  | S n' => decimal_digits n' (d / 10) ++ [d mod 10]
  end.

Fixpoint string_of_digits (ds : list Z) : string :=
  match ds with
  | [] => EmptyString
  | d :: ds' => String (digit_char d) (string_of_digits ds')
  end.

(** The decimal digits of a natural number, with no leading zero. *)
Fixpoint natural_digits (fuel : nat) (d : Z) : list Z :=
  match fuel with
  | O => []
  | S fuel' => if d <? 10 then [d] else natural_digits fuel' (d / 10) ++ [d mod 10]
  end.

Definition string_of_natural (d : Z) : string :=
  string_of_digits (natural_digits (S (Z.to_nat (Z.log2 d))) d).

Fixpoint strip_trailing_zeros_rev (ds : list Z) : list Z :=
  match ds with
  | 0 :: ds' => strip_trailing_zeros_rev ds'
  | _ => ds
  end.

Definition strip_trailing_zeros (ds : list Z) : list Z :=
  rev (strip_trailing_zeros_rev (rev ds)).

(** Is [num / den >= 10 ^ k]?  ([num], [den] positive, [k] of any sign.) *)
Definition ge_pow10 (num den k : Z) : bool :=
  if 0 <=? k then den * 10 ^ k <=? num else den <=? num * 10 ^ (- k).

(** The decimal exponent of [num / den]: the [X] with
    [10 ^ X <= num / den < 10 ^ (X + 1)], searched upwards from a lower
    estimate taken from the binary logarithms. *)
Fixpoint decimal_exponent_from (fuel : nat) (num den X : Z) : Z :=
  match fuel with
  | O => X
  | S fuel' =>
      if ge_pow10 num den (X + 1)
      then decimal_exponent_from fuel' num den (X + 1)
      else X
  end.

Definition decimal_exponent (num den : Z) : Z :=
  let l := Z.log2 num - Z.log2 den in
  decimal_exponent_from 4 num den ((l - 1) * 30103 / 100000 - 1).

(** [num / den * 10 ^ k] rounded to the nearest integer, ties to even. *)
Definition round_scaled (num den k : Z) : Z :=
  let n := if 0 <=? k then num * 10 ^ k else num in
  let d := if 0 <=? k then den else den * 10 ^ (- k) in
  let q := n / d in
  let r := n mod d in
  if (d <? 2 * r) || ((d =? 2 * r) && Z.odd q) then q + 1 else q.

(** The [precision] significant digits of [num / den] and its decimal
    exponent after rounding. *)
Definition significant_digits (precision num den : Z) : Z * Z :=
  let X := decimal_exponent num den in
  let D := round_scaled num den (precision - 1 - X) in
  if D =? 10 ^ precision then (10 ^ (precision - 1), X + 1) else (D, X).

Definition with_fraction (int_part : string) (frac : list Z) : string :=
  match strip_trailing_zeros frac with
  | [] => int_part
  | ds => int_part +:+ "." +:+ string_of_digits ds
  end.

(** [%g] for the positive number [num / den]. *)
Definition put_positive (precision num den : Z) : string :=
  let P := if precision =? 0 then 1 else precision in
  let '(D, X) := significant_digits P num den in
  if (-4 <=? X) && (X <? P)
  then
    (* fixed notation, [P - 1 - X] digits after the point *)
    let k := P - 1 - X in
    with_fraction (string_of_natural (D / 10 ^ k))
                  (decimal_digits (Z.to_nat k) (D mod 10 ^ k))
  else
    (* scientific notation, [P - 1] digits after the point, and an
       exponent of at least two digits *)
    let k := P - 1 in
    let e := Z.abs X in
    with_fraction (string_of_natural (D / 10 ^ k))
                  (decimal_digits (Z.to_nat k) (D mod 10 ^ k))
    +:+ "e" +:+ (if X <? 0 then "-" else "+")
    +:+ (if e <? 10 then "0" else "") +:+ string_of_natural e.

Definition put_sign (s : bool) (text : string) : string :=
  if s then "-" +:+ text else text.

(** [os << value] for a [double].  (Of a NaN the program writes [nan] or
    [-nan], by the sign bit of the NaN.  A primitive [float] has one NaN
    and no sign for it: here a NaN is shown as [nan], and what is proved
    of the text of a number is stated for numbers that are not NaN.) *)
Definition put_double (precision : Z) (value : float) : string :=
  match Prim2SF value with
  | S754_zero s => put_sign s "0"
  | S754_infinity s => put_sign s "inf"
  | S754_nan => "nan"
  | S754_finite s m e =>
      put_sign s
        (if 0 <=? e
         then put_positive precision (Z.pos m * 2 ^ e) 1
         else put_positive precision (Z.pos m) (2 ^ (- e)))
  end.

(** ** [value.cpp] *)

(** [Ostream_visitor]: what each alternative writes to [os]. *)
Definition Ostream_visitor (v : Value) : string :=
  match v with
  | Str value => value                              (* os << value *)
  | Num value => put_double default_precision value (* os << value *)
  | Bool value => if value then "true" else "false" (* os << boolalpha << value *)
  | Nil => "nil"                                    (* os << "nil" *)
  end.

(** [print_value]: applies the visitor on [cout]. *)
Definition print_value (cout : string) (value : Value) : string :=
  cout +:+ Ostream_visitor value.

(** ** [chunk.hpp], [vm.hpp] (their declarations, as [vm.cpp] uses them) *)

(** The enumerators of [enum class Op_code]. *)
Module Op_code.
Inductive t : Type :=
| constant | nil | true_ | false_ | pop
| get_local | set_local | get_global | set_global | define_global
| equal | greater | less | add | subtract | multiply | divide
| not_ | negate | print | jump | jump_if_false | loop | return_.
End Op_code.

Record Chunk : Type := {
  code : list byte;
  constants : list Value;
  lines : list Z
}.

(** The members of [VM] that [run] works on ([chunk_] is the argument of
    the definitions below), and the text written to [std::cout]. *)
Record VM : Type := {
  ip_ : Z;                        (* ip_ - chunk_->code.cbegin() *)
  stack_ : list Value;
  globals_ : gmap string Value;
  cout : string
}.

(** What [run] can throw: [VM_error], and the exceptions of the library
    calls it makes ([boost::get] on a variant that holds another type,
    [std::vector::at] out of range). *)
Inductive Exception : Type :=
| VM_error (what : string)
| bad_get
| out_of_range.

Definition is_VM_error (e : Exception) : bool :=
  match e with
  | VM_error _ => true
  | _ => false
  end.

(** ** A state, exception and undefined-behaviour monad *)

Inductive Result (A : Type) : Type :=
| Ok (a : A) (vm : VM)
| Throw (e : Exception) (vm : VM)
| Undefined.
Arguments Ok {A} a vm.
Arguments Throw {A} e vm.
Arguments Undefined {A}.

Definition M (A : Type) : Type := VM -> Result A.

Definition ret {A} (a : A) : M A := fun vm => Ok a vm.

Definition bind {A B} (m : M A) (k : A -> M B) : M B :=
  fun vm =>
    match m vm with
    | Ok a vm' => k a vm'
    | Throw e vm' => Throw e vm'
    | Undefined => Undefined
    end.

Notation "'let*' x ':=' m 'in' k" := (bind m (fun x => k))
  (at level 10, x name, m at level 100, k at level 200).
Notation "m ';;' k" := (bind m (fun _ => k))
  (at level 100, k at level 200, right associativity).

Definition throw {A} (e : Exception) : M A := fun vm => Throw e vm.

(** *** The instruction pointer *)

Definition byte_at (chunk : Chunk) (offset : Z) : option byte :=
  if offset <? 0 then None else code chunk !! Z.to_nat offset.

Definition index_of (b : byte) : Z := Z.of_N (Byte.to_N b).

(** [*ip_++] *)
Definition read_byte (chunk : Chunk) : M byte :=
  fun vm =>
    match byte_at chunk (ip_ vm) with
    | Some b =>
        Ok b {| ip_ := ip_ vm + 1; stack_ := stack_ vm;
                globals_ := globals_ vm; cout := cout vm |}
    | None => Undefined
    end.

(** [ip_ += n], as a number: a target outside the code is computed, and
    noticed at the next read.  (C++ leaves the arithmetic undefined once
    the iterator leaves the code; what is proved to be defined is stated
    for the instructions that do not jump.) *)
Definition advance (n : Z) : M unit :=
  fun vm =>
    Ok tt {| ip_ := ip_ vm + n; stack_ := stack_ vm;
             globals_ := globals_ vm; cout := cout vm |}.

(** The byte order of the host, which decides what two adjacent bytes
    mean when they are read as one [uint16_t]. *)
Inductive Byte_order : Type := little_endian | big_endian.

Definition uint16_of_bytes (host : Byte_order) (first second : byte) : Z :=
  match host with
  | little_endian => Z.lor (index_of first) (Z.shiftl (index_of second) 8)
  | big_endian => Z.lor (Z.shiftl (index_of first) 8) (index_of second)
  end.

(** [reinterpret_cast<const uint16_t&>( *ip_)]: the two bytes at [ip_],
    which is left where it is, with the value that they have on the host.
    (That the bytes are read through a cast is not marked.) *)
Definition read_uint16 (host : Byte_order) (chunk : Chunk) : M Z :=
  fun vm =>
    match byte_at chunk (ip_ vm), byte_at chunk (ip_ vm + 1) with
    | Some first, Some second => Ok (uint16_of_bytes host first second) vm
    | _, _ => Undefined
    end.

(** *** The stack *)

(** [stack_.push_back(value)] *)
Definition push_back (value : Value) : M unit :=
  fun vm =>
    Ok tt {| ip_ := ip_ vm; stack_ := stack_ vm ++ [value];
             globals_ := globals_ vm; cout := cout vm |}.

(** [stack_.back()] *)
Definition back : M Value :=
  fun vm =>
    match last (stack_ vm) with
    | Some value => Ok value vm
    | None => Undefined
    end.

(** [stack_.pop_back()] *)
Definition pop_back : M unit :=
  fun vm =>
    match last (stack_ vm) with
    | Some _ =>
        Ok tt {| ip_ := ip_ vm; stack_ := removelast (stack_ vm);
                 globals_ := globals_ vm; cout := cout vm |}
    | None => Undefined
    end.

(** [stack_.at(slot)], read *)
Definition stack_at (slot : Z) : M Value :=
  fun vm =>
    match stack_ vm !! Z.to_nat slot with
    | Some value => Ok value vm
    | None => Throw out_of_range vm
    end.

(** [stack_.at(slot) = value] *)
Definition stack_at_assign (slot : Z) (value : Value) : M unit :=
  fun vm =>
    match stack_ vm !! Z.to_nat slot with
    | Some _ =>
        Ok tt {| ip_ := ip_ vm; stack_ := <[Z.to_nat slot := value]> (stack_ vm);
                 globals_ := globals_ vm; cout := cout vm |}
    | None => Throw out_of_range vm
    end.

(** *** Constants and variants *)

(** [chunk_->constants.at(constant_offset)] *)
Definition constants_at (chunk : Chunk) (constant_offset : Z) : M Value :=
  fun vm =>
    match constants chunk !! Z.to_nat constant_offset with
    | Some value => Ok value vm
    | None => Throw out_of_range vm
    end.

(** [get<string>(value.variant)] *)
Definition get_string (value : Value) : M string :=
  match value with
  | Str s => ret s
  | _ => throw bad_get
  end.

(** [get<double>(value.variant)] *)
Definition get_double (value : Value) : M float :=
  match value with
  | Num d => ret d
  | _ => throw bad_get
  end.

(** *** Globals *)

(** [globals_.find(name)]: the binding found, or [None] for
    [globals_.end()]. *)
Definition globals_find (name : string) : M (option Value) :=
  fun vm => Ok (globals_ vm !! name) vm.

(** [found_value->second = value] and [globals_[name] = value] *)
Definition globals_assign (name : string) (value : Value) : M unit :=
  fun vm =>
    Ok tt {| ip_ := ip_ vm; stack_ := stack_ vm;
             globals_ := <[name := value]> (globals_ vm); cout := cout vm |}.

(** *** Output *)

(** [cout << text] *)
Definition cout_put (text : string) : M unit :=
  fun vm =>
    Ok tt {| ip_ := ip_ vm; stack_ := stack_ vm;
             globals_ := globals_ vm; cout := cout vm +:+ text |}.

(** [print_value(value)] *)
Definition do_print_value (value : Value) : M unit :=
  fun vm =>
    Ok tt {| ip_ := ip_ vm; stack_ := stack_ vm;
             globals_ := globals_ vm; cout := print_value (cout vm) value |}.

Definition newline : string := String (ascii_of_N 10) EmptyString.

(** [for (const auto value : values) body(value)] *)
Fixpoint for_each (values : list Value) (body : Value -> M unit) : M unit :=
  match values with
  | [] => ret tt
  | value :: rest => body value ;; for_each rest body
  end.

(** ** [vm.cpp]: the visitors *)

(** Only false and nil are falsey, everything else is truthy. *)
Definition Is_truthy_visitor (v : Value) : bool :=
  match v with
  | Bool value => value
  | Nil => false
  | _ => true
  end.

(** Different types compare false; same types use [==] of the type. *)
Definition Is_equal_visitor (lhs rhs : Value) : bool :=
  match lhs, rhs with
  | Str l, Str r => String.eqb l r
  | Num l, Num r => PrimFloat.eqb l r
  | Bool l, Bool r => Bool.eqb l r
  | Nil, Nil => true
  | _, _ => false
  end.

Definition Plus_visitor (lhs rhs : Value) : M Value :=
  match lhs, rhs with
  | Str l, Str r => ret (Str (l +:+ r))
  | Num l, Num r => ret (Num (l + r)%float)
  | _, _ => throw (VM_error "Operands must be two numbers or two strings.")
  end.

(** How one pass through the [switch] of [VM::run] ends: with [break], back to the top
    of the loop, or with [return]. *)
Inductive Flow : Type := break_ | return_.

(** ** What the top of the loop writes *)

(** The stack as the trace shows it. *)
Fixpoint stack_text (stack : list Value) : string :=
  match stack with
  | [] => ""
  | value :: rest => "[ " +:+ Ostream_visitor value +:+ " ]" +:+ stack_text rest
  end.

(** ** A concrete machine, for examples *)

(** Modelled from the spec: the values of the enumerators of [Op_code]
    ([chunk.hpp] is not among the sources), numbered from 0 in the order
    of the spec's list of op codes. *)
Definition Op_code_in_order : list Op_code.t :=
  [ Op_code.constant; Op_code.nil; Op_code.true_; Op_code.false_; Op_code.pop;
    Op_code.get_local; Op_code.set_local; Op_code.get_global;
    Op_code.set_global; Op_code.define_global; Op_code.equal;
    Op_code.greater; Op_code.less; Op_code.add; Op_code.subtract;
    Op_code.multiply; Op_code.divide; Op_code.not_; Op_code.negate;
    Op_code.print; Op_code.jump; Op_code.jump_if_false; Op_code.loop;
    Op_code.return_ ].

Definition Op_code_of_byte (b : byte) : option Op_code.t :=
  Op_code_in_order !! N.to_nat (Byte.to_N b).

(** A disassembler that writes nothing. *)
Definition silent_disassembler (chunk : Chunk) (offset : Z) : string := "".

(** A VM that has run nothing yet. *)
Definition fresh_VM : VM :=
  {| ip_ := 0; stack_ := []; globals_ := ∅; cout := "" |}.

Definition VM_with_stack (stack : list Value) : VM :=
  {| ip_ := 0; stack_ := stack; globals_ := ∅; cout := "" |}.

Definition chunk_of (bytes : list byte) (values : list Value) : Chunk :=
  {| code := bytes; constants := values; lines := map (fun _ => 1) bytes |}.

(** ** Numbers and the texts that denote them

    The vocabulary of the specification's description of printed numbers
    ("round-trip decimal"): the rational number a finite [double] is, the
    rational number a decimal text denotes, and what it means for a text to
    read back as a given [double]. *)

(** A NaN, by its IEEE 754 class. *)
Definition is_NaN (v : Value) : bool :=
  match v with
  | Num d => match Prim2SF d with S754_nan => true | _ => false end
  | _ => false
  end.

Definition power_of (base k : Z) : Q :=
  if (0 <=? k)%Z then inject_Z (base ^ k) else Qinv (inject_Z (base ^ (- k))).

(** The number a finite [double] is. *)
Definition double_value (d : float) : option Q :=
  match Prim2SF d with
  | S754_zero _ => Some (inject_Z 0)
  | S754_finite s m e =>
      Some (Qmult (inject_Z (if s then Z.neg m else Z.pos m)) (power_of 2 e))
  | S754_infinity _ | S754_nan => None
  end.

Definition digit_of (c : ascii) : option Z :=
  let n := Z.of_N (N_of_ascii c) in
  if (48 <=? n)%Z && (n <=? 57)%Z then Some (n - 48)%Z else None.

(** The leading digits of [text]: their value after [acc], how many they
    are after [count], and the rest of the text. *)
Fixpoint read_digits (text : string) (acc count : Z) : Z * Z * string :=
  match text with
  | String c rest =>
      match digit_of c with
      | Some d => read_digits rest (10 * acc + d)%Z (count + 1)%Z
      | None => (acc, count, text)
      end
  | EmptyString => (acc, count, text)
  end.

Definition read_sign (text : string) : bool * string :=
  match text with
  | String "-" rest => (true, rest)
  | String "+" rest => (false, rest)
  | _ => (false, text)
  end.

(** The number denoted by a decimal text
    [[-]digits[.digits][e[+|-]digits]]. *)
Definition decimal_value (text : string) : option Q :=
  let '(negative, text) := read_sign text in
  let '(int_part, int_count, text) := read_digits text 0 0 in
  let '(frac_part, frac_count, text) :=
    match text with
    | String "." rest => read_digits rest 0 0
    | _ => (0%Z, 0%Z, text)
    end in
  let exponent :=
    match text with
    | EmptyString => Some 0%Z
    | String "e" rest =>
        let '(exp_negative, rest) := read_sign rest in
        match read_digits rest 0 0 with
        | (e, count, EmptyString) =>
            if (0 <? count)%Z then Some (if exp_negative then (- e)%Z else e) else None
        | _ => None
        end
    | _ => None
    end in
  match exponent with
  | Some e =>
      if (0 <? int_count)%Z
      then
        let magnitude :=
          Qmult (Qplus (inject_Z int_part)
                       (Qmult (inject_Z frac_part) (power_of 10 (- frac_count))))
                (power_of 10 e) in
        Some (if negative then Qopp magnitude else magnitude)
      else None
  | None => None
  end.

(** [text] reads back as [d]: it denotes a number, and no [double] is
    nearer to that number than [d] is. *)
Definition reads_back_as (text : string) (d : float) : Prop :=
  exists q x : Q,
    decimal_value text = Some q /\ double_value d = Some x /\
    forall (d' : float) (x' : Q),
      double_value d' = Some x' -> Qle (Qabs (q - x)) (Qabs (q - x')).

(** ** Reading printed numbers

    [decimal_value], one part at a time, and what the digits that the
    conversion writes denote. *)

(** The number that the digits [ds] denote after [acc]. *)
Definition digits_value (ds : list Z) (acc : Z) : Z :=
  fold_left (fun a d => 10 * a + d) ds acc.

Definition all_digits (ds : list Z) : Prop := Forall (fun d => 0 <= d <= 9) ds.

(** [text] does not go on with a digit. *)
Definition no_digit_ahead (text : string) : Prop :=
  match text with
  | String c _ => digit_of c = None
  | EmptyString => True
  end.

(** What [decimal_value] reads after the integer part: the fraction, if
    there is one. *)
Definition read_fraction (text : string) : Z * Z * string :=
  match text with
  | String "." rest => read_digits rest 0 0
  | _ => (0, 0, text)
  end.

(** What [decimal_value] reads after the fraction: the exponent. *)
Definition read_exponent (text : string) : option Z :=
  match text with
  | EmptyString => Some 0
  | String "e" rest =>
      let '(exp_negative, rest) := read_sign rest in
      match read_digits rest 0 0 with
      | (e, count, EmptyString) =>
          if 0 <? count then Some (if exp_negative then - e else e) else None
      | _ => None
      end
  | _ => None
  end.

(** Does the character [c] occur in [text]?  A printed number is in
    scientific notation when it mentions ["e"]. *)
Fixpoint mentions (c : ascii) (text : string) : bool :=
  match text with
  | EmptyString => false
  | String c' rest => Ascii.eqb c c' || mentions c rest
  end.

(** ** The estimate of the decimal exponent

    [decimal_exponent] starts its search at [estimate l], where [l] is the
    difference of the binary logarithms of the numerator and of the
    denominator.  That the estimate is low enough, and less than five too
    low, is checked for every [l] that a [double] can give. *)

Definition estimate (l : Z) : Z := (l - 1) * 30103 / 100000 - 1.

(** The powers of ten [a; 10 a; 100 a; ...], each from the one before. *)
Fixpoint powers_of_ten (n : nat) (a : Z) : list Z :=
  match n with
  | O => []
  | S n' => a :: powers_of_ten n' (10 * a)
  end.

(** Is [10 ^ estimate l <= 2 ^ (l - 1)] and
    [2 ^ (l + 1) <= 10 ^ (estimate l + 5)]?  Both sides are compared as
    fractions, with the powers of ten taken from [table]. *)
Definition estimate_ok (table : list Z) (l : Z) : bool :=
  let ten k := nth (Z.to_nat k) table 0 in
  let two k := Z.shiftl 1 k in
  let X0 := estimate l in
  (ten (Z.max X0 0) * two (Z.max (- (l - 1)) 0)
   <=? two (Z.max (l - 1) 0) * ten (Z.max (- X0) 0))
  && (two (Z.max (l + 1) 0) * ten (Z.max (- (X0 + 5)) 0)
      <=? ten (Z.max (X0 + 5) 0) * two (Z.max (- (l + 1)) 0)).

Definition exponent_range : list Z :=
  map (fun i => Z.of_nat i - 1100) (seq 0 2201).

(** ** [vm.cpp]: [VM::run] *)

Section Run.

(** The byte order of the machine the VM runs on. *)
Variable host : Byte_order.

(** [static_cast<Op_code>(byte)]: the enumerator whose value the byte
    is, if any (the values are fixed in [chunk.hpp]). *)
Variable to_Op_code : byte -> option Op_code.t.

(** What [disassemble_instruction(chunk, offset)] of [debug.cpp] writes
    to [cout]. *)
Variable disassemble_instruction : Chunk -> Z -> string.

(** The top of the loop: the stack, one [[ value ]] per slot from the
    bottom, then the instruction about to be run. *)
Definition trace (chunk : Chunk) : M unit :=
  cout_put "          " ;;
  let* stack := (fun vm => Ok (stack_ vm) vm) in
  for_each stack (fun value =>
    cout_put "[ " ;;
    do_print_value value ;;
    cout_put " ]") ;;
  cout_put newline ;;
  let* offset := (fun vm => Ok (ip_ vm) vm) in
  cout_put (disassemble_instruction chunk offset).

(** [left op right] for the instructions that need two numbers: the
    right operand is read and popped first. *)
Definition binary_number_op (op : float -> float -> Value) : M Flow :=
  let* right := back in
  let* right_value := get_double right in
  pop_back ;;
  let* left := back in
  let* left_value := get_double left in
  pop_back ;;
  push_back (op left_value right_value) ;;
  ret break_.

(** The body of the [switch] for one enumerator. *)
Definition execute (chunk : Chunk) (instruction : Op_code.t) : M Flow :=
  match instruction with
  | Op_code.constant =>
      let* constant_offset := read_byte chunk in
      let* constant := constants_at chunk (index_of constant_offset) in
      push_back constant ;;
      ret break_
  | Op_code.nil => push_back Nil ;; ret break_
  | Op_code.true_ => push_back (Bool true) ;; ret break_
  | Op_code.false_ => push_back (Bool false) ;; ret break_
  | Op_code.pop => pop_back ;; ret break_
  | Op_code.get_local =>
      let* slot := read_byte chunk in
      let* value := stack_at (index_of slot) in
      push_back value ;;
      ret break_
  | Op_code.set_local =>
      (* stack_.at( *ip_++) = stack_.back(): on an empty stack [back] is
         undefined, whichever side of the assignment is evaluated first *)
      let* slot := read_byte chunk in
      let* value := back in
      stack_at_assign (index_of slot) value ;;
      ret break_
  | Op_code.get_global =>
      let* constant_offset := read_byte chunk in
      let* constant := constants_at chunk (index_of constant_offset) in
      let* name := get_string constant in
      let* found_value := globals_find name in
      match found_value with
      | None => throw (VM_error ("Undefined variable '" +:+ name +:+ "'"))
      | Some second => push_back second ;; ret break_
      end
  | Op_code.set_global =>
      let* constant_offset := read_byte chunk in
      let* constant := constants_at chunk (index_of constant_offset) in
      let* name := get_string constant in
      let* found_value := globals_find name in
      match found_value with
      | None => throw (VM_error ("Undefined variable '" +:+ name +:+ "'"))
      | Some _ =>
          let* value := back in
          globals_assign name value ;;
          ret break_
      end
  | Op_code.define_global =>
      let* constant_offset := read_byte chunk in
      let* constant := constants_at chunk (index_of constant_offset) in
      let* name := get_string constant in
      let* value := back in
      globals_assign name value ;;
      pop_back ;;
      ret break_
  | Op_code.equal =>
      let* right_value := back in
      pop_back ;;
      let* left_value := back in
      pop_back ;;
      push_back (Bool (Is_equal_visitor left_value right_value)) ;;
      ret break_
  | Op_code.greater =>
      (* left_value > right_value *)
      binary_number_op (fun left_value right_value =>
        Bool (right_value <? left_value)%float)
  | Op_code.less =>
      binary_number_op (fun left_value right_value =>
        Bool (left_value <? right_value)%float)
  | Op_code.add =>
      let* right_value := back in
      pop_back ;;
      let* left_value := back in
      pop_back ;;
      let* sum := Plus_visitor left_value right_value in
      push_back sum ;;
      ret break_
  | Op_code.subtract =>
      binary_number_op (fun left_value right_value =>
        Num (left_value - right_value)%float)
  | Op_code.multiply =>
      binary_number_op (fun left_value right_value =>
        Num (left_value * right_value)%float)
  | Op_code.divide =>
      binary_number_op (fun left_value right_value =>
        Num (left_value / right_value)%float)
  | Op_code.not_ =>
      let* top := back in
      let value := Is_truthy_visitor top in
      pop_back ;;
      push_back (Bool (negb value)) ;;
      ret break_
  | Op_code.negate =>
      (* TODO Convert error: "Operand must be a number." *)
      let* top := back in
      let* value := get_double top in
      pop_back ;;
      push_back (Num (- value)%float) ;;
      ret break_
  | Op_code.print =>
      let* top := back in
      do_print_value top ;;
      cout_put newline ;;
      pop_back ;;
      ret break_
  | Op_code.jump =>
      let* jump_length := read_uint16 host chunk in
      advance 2 ;;
      advance jump_length ;;
      ret break_
  | Op_code.jump_if_false =>
      let* jump_length := read_uint16 host chunk in
      advance 2 ;;
      let* top := back in
      (if negb (Is_truthy_visitor top) then advance jump_length else ret tt) ;;
      ret break_
  | Op_code.loop =>
      let* jump_length := read_uint16 host chunk in
      advance (-1) ;;
      advance (- jump_length) ;;
      ret break_
  | Op_code.return_ => ret return_
  end.

(** One iteration of [for (;;)]: the trace, the fetch of the opcode
    byte, and the [switch], which has no [default]: a byte that is no
    enumerator falls through it. *)
Definition iteration (chunk : Chunk) : M Flow :=
  trace chunk ;;
  let* opcode := read_byte chunk in
  match to_Op_code opcode with
  | Some instruction => execute chunk instruction
  | None => ret break_
  end.

(** How a call of [run] ends. *)
Inductive Outcome : Type :=
| Returned (vm : VM)
| Thrown (e : Exception) (vm : VM)
| Undefined_behaviour
| Still_running (vm : VM).

(** [run], for at most [fuel] iterations of its loop. *)
Fixpoint run (fuel : nat) (chunk : Chunk) (vm : VM) : Outcome :=
  match fuel with
  | O => Still_running vm
  | S fuel' =>
      match iteration chunk vm with
      | Ok break_ vm' => run fuel' chunk vm'
      | Ok return_ vm' => Returned vm'
      | Throw e vm' => Thrown e vm'
      | Undefined => Undefined_behaviour
      end
  end.

(** The text one iteration writes before it fetches its opcode. *)
Definition trace_text (chunk : Chunk) (vm : VM) : string :=
  "          " +:+ stack_text (stack_ vm) +:+ newline
  +:+ disassemble_instruction chunk (ip_ vm).

(** The state in which the [switch] is entered: the trace written, the
    opcode byte read. *)
Definition fetched (chunk : Chunk) (vm : VM) : VM :=
  {| ip_ := ip_ vm + 1; stack_ := stack_ vm; globals_ := globals_ vm;
     cout := cout vm +:+ trace_text chunk vm |}.

(** The instruction pointer is at an opcode byte that is the enumerator
    [instruction]. *)
Definition at_opcode (chunk : Chunk) (vm : VM) (instruction : Op_code.t) : Prop :=
  exists opcode : byte,
    byte_at chunk (ip_ vm) = Some opcode /\ to_Op_code opcode = Some instruction.

(** The code [m] only ever adds to what has been written to [cout]. *)
Definition appends_to_cout {A : Type} (m : M A) : Prop :=
  forall vm : VM,
    match m vm with
    | Ok _ vm' | Throw _ vm' => exists rest : string, cout vm' = cout vm +:+ rest
    | Undefined => True
    end.

(** The change of the stack depth that each instruction makes when it
    ends normally. *)
Definition stack_effect (instruction : Op_code.t) : Z :=
  match instruction with
  | Op_code.constant | Op_code.nil | Op_code.true_ | Op_code.false_
  | Op_code.get_local | Op_code.get_global => 1
  | Op_code.pop | Op_code.define_global | Op_code.print
  | Op_code.equal | Op_code.greater | Op_code.less
  | Op_code.add | Op_code.subtract | Op_code.multiply | Op_code.divide => -1
  | Op_code.set_local | Op_code.set_global | Op_code.not_ | Op_code.negate
  | Op_code.jump | Op_code.jump_if_false | Op_code.loop | Op_code.return_ => 0
  end.

(** The code [m], when it ends normally, has changed the depth of the
    stack by [d]. *)
Definition changes_depth_by {A : Type} (m : M A) (d : Z) : Prop :=
  forall (vm : VM) (a : A) (vm' : VM),
    m vm = Ok a vm' ->
    Z.of_nat (length (stack_ vm')) = Z.of_nat (length (stack_ vm)) + d.

(** The number of operand bytes that follow each opcode byte. *)
Definition operand_bytes (instruction : Op_code.t) : Z :=
  match instruction with
  | Op_code.constant | Op_code.get_local | Op_code.set_local
  | Op_code.get_global | Op_code.set_global | Op_code.define_global => 1
  | Op_code.jump | Op_code.jump_if_false | Op_code.loop => 2
  | _ => 0
  end.

(** The number of values that each instruction reads from the top of the
    stack. *)
Definition operands (instruction : Op_code.t) : nat :=
  match instruction with
  | Op_code.constant | Op_code.nil | Op_code.true_ | Op_code.false_
  | Op_code.get_local | Op_code.get_global
  | Op_code.jump | Op_code.loop | Op_code.return_ => 0
  | Op_code.pop | Op_code.set_local | Op_code.set_global
  | Op_code.define_global | Op_code.not_ | Op_code.negate | Op_code.print
  | Op_code.jump_if_false => 1
  | Op_code.equal | Op_code.greater | Op_code.less | Op_code.add
  | Op_code.subtract | Op_code.multiply | Op_code.divide => 2
  end.

(** The bindings of [m2] are those of [m1], some rebound, and perhaps
    more. *)
Definition keeps_bound (m1 m2 : gmap string Value) : Prop :=
  forall name : string, is_Some (m1 !! name) -> is_Some (m2 !! name).

(** The state in which a run has ended, or is still going. *)
Definition final_state (outcome : Outcome) : option VM :=
  match outcome with
  | Returned vm' | Thrown _ vm' | Still_running vm' => Some vm'
  | Undefined_behaviour => None
  end.

(** What [compile(source)] of [compiler.cpp] returns. *)
Variable compile : string -> Chunk.

(** [VM::interpret]: the chunk of the source is run from its first byte;
    the stack, the globals and the output are those the VM has. *)
Definition interpret (fuel : nat) (source : string) (vm : VM) : Outcome :=
  let chunk := compile source in
  run fuel chunk {| ip_ := 0; stack_ := stack_ vm; globals_ := globals_ vm;
                    cout := cout vm |}.

(** * Properties *)

(** ** Texts *)

Lemma append_assoc (a b c : string) : (a +:+ b) +:+ c = a +:+ (b +:+ c).
Proof.
  induction a as [|ch a IH].
  - reflexivity.
  - change (String ch ((a +:+ b) +:+ c) = String ch (a +:+ (b +:+ c))).
    now rewrite IH.
Qed.

Lemma append_empty_r (a : string) : a +:+ "" = a.
Proof.
  induction a as [|ch a IH]; [reflexivity|].
  change (String ch (a +:+ "") = String ch a). now rewrite IH.
Qed.

(** ** The stack as a vector *)

Lemma last_two {A} (s : list A) (x y : A) : last (s ++ [x; y]) = Some y.
Proof. now rewrite last_app. Qed.

Lemma removelast_two {A} (s : list A) (x y : A) :
  removelast (s ++ [x; y]) = s ++ [x].
Proof. now rewrite removelast_app. Qed.

(** ** The top of the loop *)




Lemma for_each_stack_text (stack : list Value) (vm : VM) :
  for_each stack (fun value =>
    cout_put "[ " ;; do_print_value value ;; cout_put " ]") vm
  = Ok tt {| ip_ := ip_ vm; stack_ := stack_ vm; globals_ := globals_ vm;
             cout := cout vm +:+ stack_text stack |}.
Proof.
  revert vm. induction stack as [|value rest IH]; intros vm.
  - simpl. unfold ret. rewrite append_empty_r. now destruct vm.
  - cbn [for_each stack_text]. unfold bind at 1. unfold bind at 1.
    unfold bind at 1. unfold cout_put at 1, do_print_value, cout_put at 1.
    rewrite IH. cbn. unfold print_value.
    now rewrite !append_assoc.
Qed.

Lemma trace_writes (chunk : Chunk) (vm : VM) :
  trace chunk vm
  = Ok tt {| ip_ := ip_ vm; stack_ := stack_ vm; globals_ := globals_ vm;
             cout := cout vm +:+ trace_text chunk vm |}.
Proof.
  unfold trace, trace_text.
  unfold bind at 1. unfold cout_put at 1. unfold bind at 1.
  unfold bind at 1. rewrite for_each_stack_text. cbn [ip_ stack_ globals_ cout].
  unfold bind. unfold cout_put. cbn [ip_ stack_ globals_ cout].
  now rewrite !append_assoc.
Qed.

(** An iteration whose opcode byte is the enumerator [instruction] runs
    that case of the [switch] in the [fetched] state. *)
Lemma iteration_execute (chunk : Chunk) (vm : VM) (opcode : byte)
      (instruction : Op_code.t) :
  byte_at chunk (ip_ vm) = Some opcode ->
  to_Op_code opcode = Some instruction ->
  iteration chunk vm = execute chunk instruction (fetched chunk vm).
Proof.
  intros Hbyte Hop. unfold iteration.
  unfold bind at 1. rewrite trace_writes.
  unfold bind at 1. unfold read_byte at 1. cbn [ip_ stack_ globals_ cout].
  now rewrite Hbyte, Hop.
Qed.

(** A byte that is no enumerator is skipped. *)
Lemma iteration_no_case (chunk : Chunk) (vm : VM) (opcode : byte) :
  byte_at chunk (ip_ vm) = Some opcode ->
  to_Op_code opcode = None ->
  iteration chunk vm = Ok break_ (fetched chunk vm).
Proof.
  intros Hbyte Hop. unfold iteration.
  unfold bind at 1. rewrite trace_writes.
  unfold bind at 1. unfold read_byte at 1. cbn [ip_ stack_ globals_ cout].
  now rewrite Hbyte, Hop.
Qed.

(** Runs the monadic code of an instruction on a state whose stack and
    code bytes are known. *)
Ltac run_code :=
  repeat progress
    (unfold execute, binary_number_op, bind, ret, throw, read_byte,
       read_uint16, advance, push_back, back, pop_back, stack_at,
       stack_at_assign, constants_at, get_string, get_double, globals_find,
       globals_assign, cout_put, do_print_value, Plus_visitor, fetched;
     cbn [ip_ stack_ globals_ cout];
     rewrite ?last_snoc, ?removelast_last, ?last_two, ?removelast_two).

(** ** Jumps *)

Lemma index_of_range (b : byte) : 0 <= index_of b < 256.
Proof.
  unfold index_of. pose proof (Byte.to_N_bounded b) as H. lia.
Qed.

(** The operand of a jump is a 16-bit unsigned number. *)
Lemma uint16_of_bytes_range (first second : byte) :
  0 <= uint16_of_bytes host first second < 65536.
Proof.
  pose proof (index_of_range first) as Hf.
  pose proof (index_of_range second) as Hs.
  assert (Hshift : forall x, 0 <= x < 256 -> 0 <= Z.shiftl x 8 < 65536).
  { intros x Hx. rewrite Z.shiftl_mul_pow2 by lia. lia. }
  assert (Hlor : forall x y, 0 <= x < 65536 -> 0 <= y < 65536 ->
                             0 <= Z.lor x y < 65536).
  { intros x y Hx Hy. split; [apply Z.lor_nonneg; lia|].
    destruct (Z.eq_dec (Z.lor x y) 0) as [E|E]; [lia|].
    apply Z.log2_lt_pow2 with (b := 16); [pose proof (Z.lor_nonneg x y); lia|].
    rewrite Z.log2_lor by lia.
    apply Z.max_lub_lt.
    - destruct (Z.eq_dec x 0) as [->|]; [reflexivity|].
      apply Z.log2_lt_pow2; lia.
    - destruct (Z.eq_dec y 0) as [->|]; [reflexivity|].
      apply Z.log2_lt_pow2; lia. }
  unfold uint16_of_bytes. destruct host; apply Hlor; try apply Hshift; lia.
Qed.

(** [JUMP] leaves the iteration at the offset of the byte after its two
    operand bytes plus the operand. *)
Lemma jump_target (chunk : Chunk) (vm : VM) (opcode first second : byte) :
  byte_at chunk (ip_ vm) = Some opcode ->
  to_Op_code opcode = Some Op_code.jump ->
  byte_at chunk (ip_ vm + 1) = Some first ->
  byte_at chunk (ip_ vm + 2) = Some second ->
  iteration chunk vm
  = Ok break_ {| ip_ := (ip_ vm + 3) + uint16_of_bytes host first second;
                 stack_ := stack_ vm; globals_ := globals_ vm;
                 cout := cout vm +:+ trace_text chunk vm |}.
Proof.
  intros Hop Hjump H1 H2.
  rewrite (iteration_execute _ _ _ _ Hop Hjump).
  unfold execute, bind, read_uint16, advance, ret, fetched.
  cbn [ip_ stack_ globals_ cout].
  replace (ip_ vm + 1 + 1) with (ip_ vm + 2) by lia.
  rewrite H1, H2. cbn [ip_ stack_ globals_ cout]. do 2 f_equal. lia.
Qed.

(** [LOOP] leaves the iteration at the offset of its own opcode byte
    minus the operand. *)
Lemma loop_target (chunk : Chunk) (vm : VM) (opcode first second : byte) :
  byte_at chunk (ip_ vm) = Some opcode ->
  to_Op_code opcode = Some Op_code.loop ->
  byte_at chunk (ip_ vm + 1) = Some first ->
  byte_at chunk (ip_ vm + 2) = Some second ->
  iteration chunk vm
  = Ok break_ {| ip_ := ip_ vm - uint16_of_bytes host first second;
                 stack_ := stack_ vm; globals_ := globals_ vm;
                 cout := cout vm +:+ trace_text chunk vm |}.
Proof.
  intros Hop Hloop H1 H2.
  rewrite (iteration_execute _ _ _ _ Hop Hloop).
  unfold execute, bind, read_uint16, advance, ret, fetched.
  cbn [ip_ stack_ globals_ cout].
  replace (ip_ vm + 1 + 1) with (ip_ vm + 2) by lia.
  rewrite H1, H2. cbn [ip_ stack_ globals_ cout]. do 2 f_equal. lia.
Qed.

(** C1, as the code has it: at a [JUMP] whose two operand bytes read as
    the 16-bit number [n], the iteration ends at the offset of the byte
    after the operand plus [n]; at a [LOOP], it ends at the offset of the
    [LOOP] opcode byte itself minus [n] (the code steps back over the
    opcode byte, not forward over the operand). Nothing else changes but
    the trace written to [cout]. *)
Theorem jump_and_loop_targets (chunk : Chunk) (vm : VM) (first second : byte) :
  byte_at chunk (ip_ vm + 1) = Some first ->
  byte_at chunk (ip_ vm + 2) = Some second ->
  let n := uint16_of_bytes host first second in
  0 <= n < 65536 /\
  (at_opcode chunk vm Op_code.jump ->
   iteration chunk vm
   = Ok break_ {| ip_ := (ip_ vm + 3) + n;
                  stack_ := stack_ vm; globals_ := globals_ vm;
                  cout := cout vm +:+ trace_text chunk vm |}) /\
  (at_opcode chunk vm Op_code.loop ->
   iteration chunk vm
   = Ok break_ {| ip_ := ip_ vm - n;
                  stack_ := stack_ vm; globals_ := globals_ vm;
                  cout := cout vm +:+ trace_text chunk vm |}).
Proof.
  intros H1 H2 n. split; [apply uint16_of_bytes_range|]. split.
  - intros (opcode & Hbyte & Hop). now apply jump_target with opcode.
  - intros (opcode & Hbyte & Hop). now apply loop_target with opcode.
Qed.

(** ** Operand types *)

(** C2, what the code does: [NEGATE], [GREATER] and [LESS] read their
    operands with [get<double>]; on a value that is not a number this
    throws [boost::bad_get], which is not a [VM_error]. The stack still
    holds the offending value (and, when it is the left operand of a
    comparison that is no number, the right one has been popped). *)
Theorem number_operands_throw_bad_get (chunk : Chunk) (vm : VM) :
  is_VM_error bad_get = false /\
  (forall s top,
     stack_ vm = s ++ [top] -> which top <> which_double ->
     at_opcode chunk vm Op_code.negate \/ at_opcode chunk vm Op_code.greater
     \/ at_opcode chunk vm Op_code.less ->
     iteration chunk vm = Throw bad_get (fetched chunk vm)) /\
  (forall s left right,
     stack_ vm = s ++ [left; Num right] -> which left <> which_double ->
     at_opcode chunk vm Op_code.greater \/ at_opcode chunk vm Op_code.less ->
     iteration chunk vm
     = Throw bad_get {| ip_ := ip_ vm + 1; stack_ := s ++ [left];
                        globals_ := globals_ vm;
                        cout := cout vm +:+ trace_text chunk vm |}).
Proof.
  split; [reflexivity|]. split.
  - intros s top Hstack Htop [H|[H|H]]; destruct H as (opcode & Hbyte & Hop);
      rewrite (iteration_execute _ _ _ _ Hbyte Hop); run_code;
      rewrite Hstack; run_code; destruct top; try reflexivity;
      now elim Htop.
  - intros s left right Hstack Hleft [H|H]; destruct H as (opcode & Hbyte & Hop);
      rewrite (iteration_execute _ _ _ _ Hbyte Hop); run_code;
      rewrite Hstack; run_code; destruct left; try reflexivity;
      now elim Hleft.
Qed.

(** C4: [ADD] pops the right operand, then the left one; two numbers
    push their sum, two strings push the left one followed by the right
    one, and every other combination of types throws a [VM_error], both
    operands popped. *)
Theorem add_dispatches_on_operand_types
        (chunk : Chunk) (vm : VM) (s : list Value) (left right : Value) :
  at_opcode chunk vm Op_code.add ->
  stack_ vm = s ++ [left; right] ->
  (forall l r : float,
     left = Num l -> right = Num r ->
     iteration chunk vm
     = Ok break_ {| ip_ := ip_ vm + 1; stack_ := s ++ [Num (l + r)%float];
                    globals_ := globals_ vm;
                    cout := cout vm +:+ trace_text chunk vm |}) /\
  (forall l r : string,
     left = Str l -> right = Str r ->
     iteration chunk vm
     = Ok break_ {| ip_ := ip_ vm + 1; stack_ := s ++ [Str (l +:+ r)];
                    globals_ := globals_ vm;
                    cout := cout vm +:+ trace_text chunk vm |}) /\
  (~ (which left = which_double /\ which right = which_double) ->
   ~ (which left = which_string /\ which right = which_string) ->
   iteration chunk vm
   = Throw (VM_error "Operands must be two numbers or two strings.")
           {| ip_ := ip_ vm + 1; stack_ := s;
              globals_ := globals_ vm;
              cout := cout vm +:+ trace_text chunk vm |}).
Proof.
  intros (opcode & Hbyte & Hop) Hstack.
  rewrite (iteration_execute _ _ _ _ Hbyte Hop).
  run_code. rewrite Hstack. run_code.
  split; [|split].
  - intros l r -> ->. reflexivity.
  - intros l r -> ->. reflexivity.
  - intros Hnum Hstr.
    destruct left, right; try reflexivity;
      solve [elim Hnum; now split | elim Hstr; now split].
Qed.

(** ** Equality *)

(** IEEE comparison is antisymmetric. *)
Lemma SFcompare_antisym (x y : spec_float) :
  SFcompare y x = option_map CompOpp (SFcompare x y).
Proof.
  destruct x as [sx|sx| |sx mx ex], y as [sy|sy| |sy my ey]; cbn;
    try reflexivity;
    try (destruct sx; reflexivity); try (destruct sy; reflexivity);
    try (destruct sx, sy; reflexivity).
  change (PosDef.Pos.compare_cont Eq my mx) with (Pos.compare my mx).
  change (PosDef.Pos.compare_cont Eq mx my) with (Pos.compare mx my).
  rewrite (Z.compare_antisym ex ey), (Pos.compare_antisym mx my).
  destruct sx, sy; cbn; try reflexivity;
    destruct (ex ?= ey); cbn; try reflexivity;
    destruct (mx ?= my)%positive; reflexivity.
Qed.

Lemma SFeqb_sym (x y : spec_float) : SFeqb x y = SFeqb y x.
Proof.
  unfold SFeqb. rewrite (SFcompare_antisym x y).
  destruct (SFcompare x y) as [[]|]; reflexivity.
Qed.

Lemma SFeqb_refl (x : spec_float) : x <> S754_nan -> SFeqb x x = true.
Proof.
  intros Hx. unfold SFeqb.
  destruct x as [s|s| |s m e]; cbn; try reflexivity.
  - destruct s; reflexivity.
  - now elim Hx.
  - change (PosDef.Pos.compare_cont Eq m m) with (Pos.compare m m).
    rewrite Z.compare_refl, Pos.compare_refl. destruct s; reflexivity.
Qed.

Lemma Is_equal_visitor_sym (lhs rhs : Value) :
  Is_equal_visitor lhs rhs = Is_equal_visitor rhs lhs.
Proof.
  destruct lhs as [l|l|l|], rhs as [r|r|r|]; cbn; try reflexivity.
  - apply String.eqb_sym.
  - now rewrite !FloatAxioms.eqb_spec, SFeqb_sym.
  - destruct l, r; reflexivity.
Qed.

Lemma Is_equal_visitor_refl (v : Value) :
  is_NaN v = false -> Is_equal_visitor v v = true.
Proof.
  destruct v as [s|d|b|]; cbn; intros Hnan.
  - apply String.eqb_refl.
  - rewrite FloatAxioms.eqb_spec. apply SFeqb_refl.
    intros E. now rewrite E in Hnan.
  - now destruct b.
  - reflexivity.
Qed.

(** C5: [EQUAL] pops two values and pushes whether they are equal; it
    cannot throw. Values of different types are unequal; strings, booleans
    and numbers are compared by the equality of their type (IEEE equality
    for numbers); nil equals nil. The comparison is reflexive on every
    value that is not a NaN and symmetric on all values. *)
Theorem equal_never_throws
        (chunk : Chunk) (vm : VM) (s : list Value) (left right : Value) :
  at_opcode chunk vm Op_code.equal ->
  stack_ vm = s ++ [left; right] ->
  iteration chunk vm
  = Ok break_ {| ip_ := ip_ vm + 1;
                 stack_ := s ++ [Bool (Is_equal_visitor left right)];
                 globals_ := globals_ vm;
                 cout := cout vm +:+ trace_text chunk vm |} /\
  (which left <> which right -> Is_equal_visitor left right = false) /\
  (forall a b : string, Is_equal_visitor (Str a) (Str b) = true <-> a = b) /\
  (forall a b : bool, Is_equal_visitor (Bool a) (Bool b) = true <-> a = b) /\
  (forall a b : float,
     Is_equal_visitor (Num a) (Num b) = SFeqb (Prim2SF a) (Prim2SF b)) /\
  Is_equal_visitor Nil Nil = true /\
  (is_NaN left = false -> Is_equal_visitor left left = true) /\
  Is_equal_visitor left right = Is_equal_visitor right left.
Proof.
  intros (opcode & Hbyte & Hop) Hstack.
  rewrite (iteration_execute _ _ _ _ Hbyte Hop).
  run_code. rewrite Hstack. run_code.
  repeat split.
  - destruct left, right; cbn; intros H; try reflexivity; now elim H.
  - apply String.eqb_eq.
  - intros ->. apply String.eqb_refl.
  - apply Bool.eqb_prop.
  - intros ->. apply Bool.eqb_reflx.
  - intros a b. cbn. apply FloatAxioms.eqb_spec.
  - apply Is_equal_visitor_refl.
  - apply Is_equal_visitor_sym.
Qed.

(** ** Truthiness *)

Lemma Is_truthy_visitor_false (v : Value) :
  Is_truthy_visitor v = false <-> v = Bool false \/ v = Nil.
Proof.
  split.
  - destruct v as [s|d|[]|]; cbn; intros H; try discriminate; auto.
  - intros [->| ->]; reflexivity.
Qed.

(** C6: the truthiness that [NOT] and [JUMP_IF_FALSE] use is false on
    the boolean false and on nil and true on every other value, the number
    0 and the empty string among them. [NOT] replaces the top of the stack
    by the negation of its truthiness. [JUMP_IF_FALSE] leaves the stack as
    it is and skips its operand, and the jump distance as well when the
    top is falsey. *)
Theorem truthiness_of_not_and_jump_if_false
        (chunk : Chunk) (vm : VM) (s : list Value) (top : Value) :
  stack_ vm = s ++ [top] ->
  (Is_truthy_visitor top = false <-> top = Bool false \/ top = Nil) /\
  Is_truthy_visitor (Num 0%float) = true /\
  Is_truthy_visitor (Str "") = true /\
  (at_opcode chunk vm Op_code.not_ ->
   iteration chunk vm
   = Ok break_ {| ip_ := ip_ vm + 1;
                  stack_ := s ++ [Bool (negb (Is_truthy_visitor top))];
                  globals_ := globals_ vm;
                  cout := cout vm +:+ trace_text chunk vm |}) /\
  (forall first second : byte,
     at_opcode chunk vm Op_code.jump_if_false ->
     byte_at chunk (ip_ vm + 1) = Some first ->
     byte_at chunk (ip_ vm + 2) = Some second ->
     iteration chunk vm
     = Ok break_ {| ip_ := if Is_truthy_visitor top
                           then ip_ vm + 3
                           else (ip_ vm + 3) + uint16_of_bytes host first second;
                    stack_ := s ++ [top];
                    globals_ := globals_ vm;
                    cout := cout vm +:+ trace_text chunk vm |}).
Proof.
  intros Hstack. split; [apply Is_truthy_visitor_false|].
  split; [reflexivity|]. split; [reflexivity|]. split.
  - intros (opcode & Hbyte & Hop).
    rewrite (iteration_execute _ _ _ _ Hbyte Hop).
    run_code. rewrite Hstack. run_code. reflexivity.
  - intros first second (opcode & Hbyte & Hop) H1 H2.
    rewrite (iteration_execute _ _ _ _ Hbyte Hop).
    run_code. replace (ip_ vm + 1 + 1) with (ip_ vm + 2) by lia.
    rewrite H1, H2. run_code. rewrite Hstack. run_code.
    destruct (Is_truthy_visitor top); cbn [negb]; run_code; do 2 f_equal; lia.
Qed.

(** ** Globals *)

(** C7: [GET_GLOBAL] and [SET_GLOBAL] of a name that [globals_] does not
    bind throw a [VM_error], which ends [run]; the state the exception
    leaves has the globals, and the stack, as they were: no binding is
    created. *)
Theorem undefined_global_throws
        (chunk : Chunk) (vm : VM) (operand : byte) (name : string) :
  at_opcode chunk vm Op_code.get_global \/ at_opcode chunk vm Op_code.set_global ->
  byte_at chunk (ip_ vm + 1) = Some operand ->
  constants chunk !! Z.to_nat (index_of operand) = Some (Str name) ->
  globals_ vm !! name = None ->
  let thrown := VM_error ("Undefined variable '" +:+ name +:+ "'") in
  let after := {| ip_ := ip_ vm + 2; stack_ := stack_ vm;
                  globals_ := globals_ vm;
                  cout := cout vm +:+ trace_text chunk vm |} in
  iteration chunk vm = Throw thrown after /\
  (forall fuel : nat, run (S fuel) chunk vm = Thrown thrown after) /\
  globals_ after = globals_ vm /\
  globals_ after !! name = None.
Proof.
  intros Hat Hoperand Hconstant Hundefined thrown after.
  assert (Hthrow : iteration chunk vm = Throw thrown after).
  { destruct Hat as [H|H]; destruct H as (opcode & Hbyte & Hop);
      rewrite (iteration_execute _ _ _ _ Hbyte Hop);
      run_code; rewrite Hoperand; run_code; rewrite Hconstant; run_code;
      rewrite Hundefined; unfold thrown, after; do 2 f_equal; lia. }
  split; [exact Hthrow|]. split; [|split].
  - intros fuel. cbn [run]. now rewrite Hthrow.
  - reflexivity.
  - exact Hundefined.
Qed.

(** ** Output *)

Lemma appends_ret {A} (a : A) : appends_to_cout (ret a).
Proof. intros vm. exists "". now rewrite append_empty_r. Qed.

Lemma appends_throw {A} (e : Exception) : appends_to_cout (@throw A e).
Proof. intros vm. exists "". now rewrite append_empty_r. Qed.

Lemma appends_bind {A B} (m : M A) (k : A -> M B) :
  appends_to_cout m -> (forall a, appends_to_cout (k a)) ->
  appends_to_cout (bind m k).
Proof.
  intros Hm Hk vm. unfold bind. specialize (Hm vm).
  destruct (m vm) as [a vm1|e vm1|]; [|exact Hm|exact I].
  destruct Hm as (rest1 & H1). specialize (Hk a vm1).
  destruct (k a vm1) as [b vm2|e vm2|]; [| |exact I];
    destruct Hk as (rest2 & H2); exists (rest1 +:+ rest2);
    now rewrite H2, H1, append_assoc.
Qed.

(** Code that leaves [cout] alone. *)
Lemma appends_silent {A} (m : M A) :
  (forall vm, match m vm with
              | Ok _ vm' | Throw _ vm' => cout vm' = cout vm
              | Undefined => True
              end) ->
  appends_to_cout m.
Proof.
  intros H vm. specialize (H vm).
  destruct (m vm); [| |exact I]; exists ""; now rewrite append_empty_r.
Qed.

Lemma appends_cout_put (text : string) : appends_to_cout (cout_put text).
Proof. intros vm. now exists text. Qed.

Lemma appends_do_print_value (value : Value) :
  appends_to_cout (do_print_value value).
Proof. intros vm. now exists (Ostream_visitor value). Qed.

Lemma appends_read_byte (chunk : Chunk) : appends_to_cout (read_byte chunk).
Proof.
  apply appends_silent. intros vm. unfold read_byte.
  now destruct (byte_at chunk (ip_ vm)).
Qed.

Lemma appends_read_uint16 (chunk : Chunk) :
  appends_to_cout (read_uint16 host chunk).
Proof.
  apply appends_silent. intros vm. unfold read_uint16.
  now destruct (byte_at chunk (ip_ vm)), (byte_at chunk (ip_ vm + 1)).
Qed.

Lemma appends_advance (n : Z) : appends_to_cout (advance n).
Proof. now apply appends_silent. Qed.

Lemma appends_push_back (value : Value) : appends_to_cout (push_back value).
Proof. now apply appends_silent. Qed.

Lemma appends_back : appends_to_cout back.
Proof.
  apply appends_silent. intros vm. unfold back. now destruct (last (stack_ vm)).
Qed.

Lemma appends_pop_back : appends_to_cout pop_back.
Proof.
  apply appends_silent. intros vm. unfold pop_back.
  now destruct (last (stack_ vm)).
Qed.

Lemma appends_stack_at (slot : Z) : appends_to_cout (stack_at slot).
Proof.
  apply appends_silent. intros vm. unfold stack_at.
  now destruct (stack_ vm !! Z.to_nat slot).
Qed.

Lemma appends_stack_at_assign (slot : Z) (value : Value) :
  appends_to_cout (stack_at_assign slot value).
Proof.
  apply appends_silent. intros vm. unfold stack_at_assign.
  now destruct (stack_ vm !! Z.to_nat slot).
Qed.

Lemma appends_constants_at (chunk : Chunk) (k : Z) :
  appends_to_cout (constants_at chunk k).
Proof.
  apply appends_silent. intros vm. unfold constants_at.
  now destruct (constants chunk !! Z.to_nat k).
Qed.

Lemma appends_get_string (value : Value) : appends_to_cout (get_string value).
Proof. destruct value; first [apply appends_ret | apply appends_throw]. Qed.

Lemma appends_get_double (value : Value) : appends_to_cout (get_double value).
Proof. destruct value; first [apply appends_ret | apply appends_throw]. Qed.

Lemma appends_globals_find (name : string) : appends_to_cout (globals_find name).
Proof. now apply appends_silent. Qed.

Lemma appends_globals_assign (name : string) (value : Value) :
  appends_to_cout (globals_assign name value).
Proof. now apply appends_silent. Qed.

Lemma appends_Plus_visitor (lhs rhs : Value) :
  appends_to_cout (Plus_visitor lhs rhs).
Proof.
  destruct lhs, rhs; first [apply appends_ret | apply appends_throw].
Qed.

Create HintDb appends discriminated.

#[local] Hint Resolve appends_ret appends_throw appends_cout_put
  appends_do_print_value appends_read_byte appends_read_uint16
  appends_advance appends_push_back appends_back appends_pop_back
  appends_stack_at appends_stack_at_assign appends_constants_at
  appends_get_string appends_get_double appends_globals_find
  appends_globals_assign appends_Plus_visitor : appends.

(** Splits monadic code into its steps and closes each with the hints. *)
Ltac appends :=
  repeat first
    [ apply appends_bind; [|intros ?]
    | match goal with
      | |- appends_to_cout (match ?x with _ => _ end) => destruct x
      | |- appends_to_cout (if ?b then _ else _) => destruct b
      end
    | solve [auto with appends] ].

Lemma appends_execute (chunk : Chunk) (instruction : Op_code.t) :
  appends_to_cout (execute chunk instruction).
Proof.
  destruct instruction; unfold execute, binary_number_op; appends.
Qed.

(** What an iteration leaves in [cout] starts with what was there, then
    the trace. *)
Lemma iteration_traces (chunk : Chunk) (vm : VM) :
  match iteration chunk vm with
  | Ok _ vm' | Throw _ vm' =>
      exists rest : string, cout vm' = cout vm +:+ trace_text chunk vm +:+ rest
  | Undefined => True
  end.
Proof.
  unfold iteration. unfold bind at 1. rewrite trace_writes.
  unfold bind at 1. unfold read_byte at 1. cbn [ip_ stack_ globals_ cout].
  destruct (byte_at chunk (ip_ vm)) as [opcode|]; [|exact I].
  set (vm1 := {| ip_ := ip_ vm + 1; stack_ := stack_ vm;
                 globals_ := globals_ vm;
                 cout := cout vm +:+ trace_text chunk vm |}).
  assert (H : appends_to_cout
                (match to_Op_code opcode with
                 | Some instruction => execute chunk instruction
                 | None => ret break_
                 end)).
  { destruct (to_Op_code opcode); [apply appends_execute | apply appends_ret]. }
  specialize (H vm1).
  destruct (match to_Op_code opcode with
            | Some instruction => execute chunk instruction
            | None => ret break_
            end vm1) as [flow vm'|e vm'|]; [| |exact I];
    destruct H as (rest & H); exists rest; rewrite H; unfold vm1;
    cbn [cout]; now rewrite append_assoc.
Qed.

(** C8, as the code has it: every iteration of the loop of [run] first
    writes the stack, one [[ value ]] per slot after ten spaces, a newline
    and the disassembly of the instruction at [ip_], whatever the
    instruction then does; nothing in the VM's state or in the chunk
    switches this off. *)
Theorem trace_is_unconditional (chunk : Chunk) (vm : VM) :
  trace_text chunk vm
  = "          " +:+ stack_text (stack_ vm) +:+ newline
    +:+ disassemble_instruction chunk (ip_ vm) /\
  (forall (flow : Flow) (vm' : VM),
     iteration chunk vm = Ok flow vm' ->
     exists rest : string, cout vm' = cout vm +:+ trace_text chunk vm +:+ rest) /\
  (forall (e : Exception) (vm' : VM),
     iteration chunk vm = Throw e vm' ->
     exists rest : string, cout vm' = cout vm +:+ trace_text chunk vm +:+ rest).
Proof.
  split; [reflexivity|].
  pose proof (iteration_traces chunk vm) as H.
  split; intros ? vm' E; now rewrite E in H.
Qed.

(** ** Printed numbers

    What the conversion of a [double] writes, read as a decimal: the
    powers of ten and of two as rational numbers, the decimal exponent,
    the rounding to six significant digits, and the digits as text. *)

Lemma power_of_Qpower (b k : Z) : (power_of b k == inject_Z b ^ k)%Q.
Proof.
  unfold power_of. destruct (Z.leb_spec 0 k) as [H|H].
  - now apply Zpower_Qpower.
  - rewrite Zpower_Qpower by lia. rewrite <- Qpower_opp.
    now replace (- - k) with k by lia.
Qed.

Lemma power_of_add (b i j : Z) :
  0 < b -> (power_of b (i + j) == power_of b i * power_of b j)%Q.
Proof.
  intros H. rewrite !power_of_Qpower. apply Qpower_plus.
  intros H0. apply (inject_Z_injective b 0) in H0. lia.
Qed.

Lemma power_of_pos (b k : Z) : 0 < b -> (0 < power_of b k)%Q.
Proof.
  intros H. rewrite power_of_Qpower. apply Qpower_0_lt.
  unfold Qlt; cbn; lia.
Qed.

Lemma power_of_le (b i j : Z) :
  1 <= b -> i <= j -> (power_of b i <= power_of b j)%Q.
Proof.
  intros Hb H. rewrite !power_of_Qpower. apply Qpower_le_compat_l; [exact H|].
  unfold Qle; cbn; lia.
Qed.

Lemma power_of_lt_inv (b i j : Z) :
  1 < b -> (power_of b i < power_of b j)%Q -> i < j.
Proof.
  intros Hb H. rewrite !power_of_Qpower in H.
  apply (Qpower_lt_compat_l_inv _ _ _ H).
  unfold Qlt; cbn; lia.
Qed.

Lemma power_of_nonneg (b k : Z) : 0 <= k -> power_of b k = inject_Z (b ^ k).
Proof.
  intros H. unfold power_of. destruct (Z.leb_spec 0 k); [reflexivity | lia].
Qed.

Lemma Qle_frac (a b c d : Z) :
  0 < b -> 0 < d ->
  (inject_Z a / inject_Z b <= inject_Z c / inject_Z d)%Q <-> a * d <= c * b.
Proof.
  intros Hb Hd.
  rewrite <- (Z2Pos.id b Hb), <- (Z2Pos.id d Hd) at 1.
  rewrite <- !Qmake_Qdiv. unfold Qle. cbn [Qnum Qden].
  rewrite !Z2Pos.id by assumption. reflexivity.
Qed.

Lemma Qlt_frac (a b c d : Z) :
  0 < b -> 0 < d ->
  (inject_Z a / inject_Z b < inject_Z c / inject_Z d)%Q <-> a * d < c * b.
Proof.
  intros Hb Hd.
  rewrite <- (Z2Pos.id b Hb), <- (Z2Pos.id d Hd) at 1.
  rewrite <- !Qmake_Qdiv. unfold Qlt. cbn [Qnum Qden].
  rewrite !Z2Pos.id by assumption. reflexivity.
Qed.

Lemma power_of_sub_frac (b i j : Z) :
  0 < b -> 0 <= i -> 0 <= j ->
  (power_of b (i - j) == inject_Z (b ^ i) / inject_Z (b ^ j))%Q.
Proof.
  intros Hb Hi Hj. replace (i - j) with (i + - j) by lia.
  rewrite power_of_add by exact Hb.
  rewrite (power_of_Qpower b (- j)), Qpower_opp, <- Zpower_Qpower by exact Hj.
  rewrite power_of_nonneg by exact Hi. reflexivity.
Qed.

Lemma power_of_frac (b k : Z) :
  0 < b ->
  (power_of b k
   == inject_Z (b ^ Z.max k 0) / inject_Z (b ^ Z.max (- k) 0))%Q.
Proof.
  intros Hb. rewrite <- power_of_sub_frac by lia.
  now replace (Z.max k 0 - Z.max (- k) 0) with k by lia.
Qed.

(** [ge_pow10] compares with a power of ten. *)
Lemma ge_pow10_true (num den k : Z) :
  0 < den ->
  ge_pow10 num den k = true
  <-> (power_of 10 k <= inject_Z num / inject_Z den)%Q.
Proof.
  intros Hden. rewrite (power_of_frac 10 k) by lia.
  rewrite Qle_frac by (try apply Z.pow_pos_nonneg; lia).
  unfold ge_pow10. destruct (Z.leb_spec 0 k) as [H|H].
  - rewrite Z.max_l, Z.max_r by lia. rewrite Z.pow_0_r, Z.leb_le. lia.
  - rewrite Z.max_r, Z.max_l by lia. rewrite Z.pow_0_r, Z.leb_le. lia.
Qed.

Lemma ge_pow10_false (num den k : Z) :
  0 < den ->
  ge_pow10 num den k = false
  <-> (inject_Z num / inject_Z den < power_of 10 k)%Q.
Proof.
  intros Hden. rewrite <- Bool.not_true_iff_false, ge_pow10_true by exact Hden.
  split; [apply Qnot_le_lt | apply Qlt_not_le].
Qed.

Lemma search_exponent (num den : Z) (fuel : nat) (X : Z) :
  ge_pow10 num den X = true ->
  ge_pow10 num den (X + Z.of_nat fuel + 1) = false ->
  ge_pow10 num den (decimal_exponent_from fuel num den X) = true /\
  ge_pow10 num den (decimal_exponent_from fuel num den X + 1) = false.
Proof.
  revert X. induction fuel as [|fuel IH]; intros X Hlow Hhigh.
  - cbn [decimal_exponent_from]. split; [exact Hlow|].
    now replace (X + 1) with (X + Z.of_nat 0 + 1) by lia.
  - cbn [decimal_exponent_from].
    destruct (ge_pow10 num den (X + 1)) eqn:Hnext.
    + apply IH; [exact Hnext|].
      now replace (X + 1 + Z.of_nat fuel + 1)
        with (X + Z.of_nat (S fuel) + 1) by lia.
    + now split.
Qed.

Lemma powers_of_ten_nth (n k : nat) (a : Z) :
  (k < n)%nat -> nth k (powers_of_ten n a) 0 = a * 10 ^ Z.of_nat k.
Proof.
  revert k a. induction n as [|n IH]; intros k a Hk; [lia|].
  destruct k as [|k]; cbn [powers_of_ten nth].
  - change (Z.of_nat 0) with 0. rewrite Z.pow_0_r. lia.
  - rewrite IH by lia. rewrite Nat2Z.inj_succ, Z.pow_succ_r by lia. lia.
Qed.

Lemma estimates_checked :
  forallb (estimate_ok (powers_of_ten 400 1)) exponent_range = true.
Proof. vm_compute. reflexivity. Qed.

Lemma estimate_bounds (l : Z) :
  -1100 <= l <= 1100 ->
  (power_of 10 (estimate l) <= power_of 2 (l - 1))%Q /\
  (power_of 2 (l + 1) <= power_of 10 (estimate l + 5))%Q.
Proof.
  intros H. pose proof estimates_checked as Hall.
  rewrite forallb_forall in Hall.
  assert (Hin : In l exponent_range).
  { unfold exponent_range. apply in_map_iff.
    exists (Z.to_nat (l + 1100)). split; [lia|]. apply in_seq. lia. }
  apply Hall in Hin. unfold estimate_ok in Hin.
  set (X0 := estimate l) in *.
  assert (HX : -400 < X0 < 390).
  { unfold X0, estimate.
    pose proof (Z.div_mod ((l - 1) * 30103) 100000 ltac:(lia)).
    pose proof (Z.mod_pos_bound ((l - 1) * 30103) 100000 ltac:(lia)). lia. }
  rewrite !powers_of_ten_nth in Hin by lia.
  rewrite !Z2Nat.id in Hin by lia.
  rewrite !Z.shiftl_1_l in Hin. rewrite !Z.mul_1_l in Hin.
  apply andb_true_iff in Hin as [H1 H2].
  apply Z.leb_le in H1, H2.
  rewrite (power_of_frac 10 X0), (power_of_frac 10 (X0 + 5)),
    (power_of_frac 2 (l - 1)), (power_of_frac 2 (l + 1)) by lia.
  rewrite !Qle_frac by (apply Z.pow_pos_nonneg; lia).
  split; assumption.
Qed.

Lemma log2_bounds (num den : Z) :
  0 < num -> 0 < den ->
  let l := Z.log2 num - Z.log2 den in
  (power_of 2 (l - 1) <= inject_Z num / inject_Z den)%Q /\
  (inject_Z num / inject_Z den < power_of 2 (l + 1))%Q.
Proof.
  intros Hnum Hden l.
  pose proof (Z.log2_spec num Hnum) as Ha.
  pose proof (Z.log2_spec den Hden) as Hb.
  pose proof (Z.log2_nonneg num) as Ha0.
  pose proof (Z.log2_nonneg den) as Hb0.
  replace (l - 1) with (Z.log2 num - Z.succ (Z.log2 den)) by lia.
  replace (l + 1) with (Z.succ (Z.log2 num) - Z.log2 den) by lia.
  rewrite !power_of_sub_frac by lia.
  rewrite Qle_frac, Qlt_frac by (try apply Z.pow_pos_nonneg; lia).
  assert (0 < 2 ^ Z.log2 num) by (apply Z.pow_pos_nonneg; lia).
  assert (0 < 2 ^ Z.log2 den) by (apply Z.pow_pos_nonneg; lia).
  split.
  - transitivity (num * den); [|nia]. nia.
  - apply Z.le_lt_trans with (num * den); nia.
Qed.

(** [decimal_exponent] is the decimal exponent. *)
Lemma decimal_exponent_spec (num den : Z) :
  0 < num -> 0 < den ->
  -1100 <= Z.log2 num - Z.log2 den <= 1100 ->
  let X := decimal_exponent num den in
  (power_of 10 X <= inject_Z num / inject_Z den)%Q /\
  (inject_Z num / inject_Z den < power_of 10 (X + 1))%Q.
Proof.
  intros Hnum Hden Hl X.
  destruct (log2_bounds num den Hnum Hden) as [Hlow Hhigh].
  destruct (estimate_bounds _ Hl) as [Hbelow Habove].
  rewrite <- ge_pow10_true, <- ge_pow10_false by exact Hden.
  apply search_exponent.
  - apply ge_pow10_true; [exact Hden|].
    eapply Qle_trans; [exact Hbelow | exact Hlow].
  - apply ge_pow10_false; [exact Hden|].
    eapply Qlt_le_trans; [exact Hhigh|].
    replace ((Z.log2 num - Z.log2 den - 1) * 30103 / 100000 - 1
             + Z.of_nat 4 + 1)
      with (estimate (Z.log2 num - Z.log2 den) + 5)
      by (unfold estimate; lia).
    exact Habove.
Qed.

Lemma Qeq_frac (a b c d : Z) :
  0 < b -> 0 < d ->
  (inject_Z a / inject_Z b == inject_Z c / inject_Z d)%Q <-> a * d = c * b.
Proof.
  intros Hb Hd.
  rewrite <- (Z2Pos.id b Hb), <- (Z2Pos.id d Hd) at 1.
  rewrite <- !Qmake_Qdiv. unfold Qeq. cbn [Qnum Qden].
  rewrite !Z2Pos.id by assumption. reflexivity.
Qed.

Lemma inject_Z_nonzero (d : Z) : 0 < d -> ~ (inject_Z d == 0)%Q.
Proof. intros H H0. apply (inject_Z_injective d 0) in H0. lia. Qed.

(** Division with the remainder rounded to nearest, ties to even. *)
Lemma round_half_even (n d : Z) :
  0 < d ->
  let q := n / d in
  let r := n mod d in
  let N := if (d <? 2 * r) || ((d =? 2 * r) && Z.odd q) then q + 1 else q in
  (Qabs (inject_Z n / inject_Z d - inject_Z N) <= 1 # 2)%Q /\
  ((Qabs (inject_Z n / inject_Z d - inject_Z N) == 1 # 2)%Q ->
   Z.even N = true).
Proof.
  intros Hd q r N.
  pose proof (Z.div_mod n d ltac:(lia)) as Hn. fold q r in Hn.
  pose proof (Z.mod_pos_bound n d Hd) as Hr. fold r in Hr.
  assert (Hx : (inject_Z n / inject_Z d - inject_Z N
                == inject_Z (n - N * d) / inject_Z d)%Q).
  { unfold Z.sub. rewrite inject_Z_plus, inject_Z_opp, inject_Z_mult.
    field. now apply inject_Z_nonzero. }
  rewrite Hx.
  assert (Hhalf : (1 # 2 == inject_Z 1 / inject_Z 2)%Q) by reflexivity.
  assert (Hneg : (- (1 # 2) == inject_Z (-1) / inject_Z 2)%Q) by reflexivity.
  assert (Hcases : (N = q + 1 /\ d <= 2 * r /\ (d = 2 * r -> Z.odd q = true))
                   \/ (N = q /\ 2 * r <= d /\ (d = 2 * r -> Z.odd q = false))).
  { unfold N. destruct (Z.ltb_spec d (2 * r)) as [Hlt|Hge]; cbn [orb].
    - left. split; [reflexivity|]. split; lia.
    - destruct (Z.eqb_spec d (2 * r)) as [Heq|Hneq]; cbn [andb].
      + destruct (Z.odd q) eqn:Hodd.
        * left. split; [reflexivity|]. split; [lia|]. reflexivity.
        * right. split; [reflexivity|]. split; [lia|]. reflexivity.
      + right. split; [reflexivity|]. split; lia. }
  clearbody N q r.
  split.
  - apply Qabs_Qle_condition. rewrite Hneg, Hhalf.
    rewrite !Qle_frac by lia.
    destruct Hcases as [(-> & H1 & _)|(-> & H1 & _)]; lia.
  - intros Htie.
    assert (Hz : (n - N * d) * 2 = d \/ (n - N * d) * 2 = - d).
    { revert Htie. apply Qabs_case; intros Hsign Htie.
      - left. rewrite Hhalf in Htie.
        pose proof (proj1 (Qeq_frac _ _ 1 2 Hd eq_refl) Htie). lia.
      - right.
        assert (H' : (inject_Z (n - N * d) / inject_Z d == - (1 # 2))%Q).
        { rewrite <- Htie. ring. }
        rewrite Hneg in H'.
        pose proof (proj1 (Qeq_frac _ _ (-1) 2 Hd eq_refl) H'). lia. }
    destruct Hcases as [(HN & H1 & Hodd)|(HN & H1 & Hodd)]; rewrite HN in *.
    + assert (Heq : d = 2 * r) by nia.
      rewrite Z.even_add, <- Z.negb_odd, (Hodd Heq). reflexivity.
    + assert (Heq : d = 2 * r) by nia.
      rewrite <- Z.negb_odd, (Hodd Heq). reflexivity.
Qed.

(** [round_scaled] rounds [num / den * 10 ^ k] to nearest, ties to even. *)
Lemma round_scaled_spec (num den k : Z) :
  0 < den ->
  let N := round_scaled num den k in
  let v := (inject_Z num / inject_Z den * power_of 10 k)%Q in
  (Qabs (v - inject_Z N) <= 1 # 2)%Q /\
  ((Qabs (v - inject_Z N) == 1 # 2)%Q -> Z.even N = true).
Proof.
  intros Hden N v. unfold N, v, round_scaled, power_of.
  destruct (Z.leb_spec 0 k) as [Hk|Hk].
  - assert (Hv : (inject_Z num / inject_Z den * inject_Z (10 ^ k)
                  == inject_Z (num * 10 ^ k) / inject_Z den)%Q).
    { rewrite inject_Z_mult. field. now apply inject_Z_nonzero. }
    rewrite Hv. now apply round_half_even.
  - assert (Hpow : 0 < 10 ^ (- k)) by (apply Z.pow_pos_nonneg; lia).
    assert (Hv : (inject_Z num / inject_Z den * / inject_Z (10 ^ (- k))
                  == inject_Z num / inject_Z (den * 10 ^ (- k)))%Q).
    { rewrite inject_Z_mult. field. split; now apply inject_Z_nonzero. }
    rewrite Hv. apply round_half_even. lia.
Qed.

(** The number that a list of digits denotes after [acc]. *)
(** [text] does not go on with a digit. *)
Lemma digit_cases (d : Z) :
  0 <= d <= 9 ->
  d = 0 \/ d = 1 \/ d = 2 \/ d = 3 \/ d = 4 \/ d = 5 \/ d = 6 \/ d = 7
  \/ d = 8 \/ d = 9.
Proof. lia. Qed.

Lemma digit_of_digit_char (d : Z) : 0 <= d <= 9 -> digit_of (digit_char d) = Some d.
Proof.
  intros H. destruct (digit_cases d H) as [->|[->|[->|[->|[->|[->|[->|[->|[->| ->]]]]]]]]];
    reflexivity.
Qed.

Lemma read_sign_digit (d : Z) (text : string) :
  0 <= d <= 9 ->
  read_sign (String (digit_char d) text) = (false, String (digit_char d) text).
Proof.
  intros H. destruct (digit_cases d H) as [->|[->|[->|[->|[->|[->|[->|[->|[->| ->]]]]]]]]];
    reflexivity.
Qed.

Lemma read_digits_stop (text : string) (acc count : Z) :
  no_digit_ahead text -> read_digits text acc count = (acc, count, text).
Proof.
  destruct text as [|c rest]; cbn [read_digits no_digit_ahead]; [reflexivity|].
  now intros ->.
Qed.

Lemma read_digits_digits (ds : list Z) (rest : string) (acc count : Z) :
  all_digits ds -> no_digit_ahead rest ->
  read_digits (string_of_digits ds +:+ rest) acc count
  = (digits_value ds acc, count + Z.of_nat (length ds), rest).
Proof.
  intros Hds Hrest. revert acc count.
  induction Hds as [|d ds Hd _ IH]; intros acc count.
  - change (string_of_digits [] +:+ rest) with rest.
    rewrite read_digits_stop by exact Hrest.
    cbn [digits_value fold_left length]. now rewrite Z.add_0_r.
  - change (string_of_digits (d :: ds) +:+ rest)
      with (String (digit_char d) (string_of_digits ds +:+ rest)).
    cbn [read_digits]. rewrite digit_of_digit_char by exact Hd.
    rewrite IH. cbn [length]. unfold digits_value. cbn [fold_left].
    f_equal. f_equal. lia.
Qed.

Lemma digits_value_app (ds1 ds2 : list Z) (acc : Z) :
  digits_value (ds1 ++ ds2) acc = digits_value ds2 (digits_value ds1 acc).
Proof. apply fold_left_app. Qed.

Lemma digits_value_zeros (j : nat) (acc : Z) :
  digits_value (repeat 0 j) acc = acc * 10 ^ Z.of_nat j.
Proof.
  revert acc. induction j as [|j IH]; intros acc.
  - cbn. lia.
  - unfold digits_value in *. cbn [repeat fold_left].
    rewrite IH. rewrite Nat2Z.inj_succ, Z.pow_succ_r by lia. lia.
Qed.

(** *** The digits of a natural number *)

Lemma natural_digits_spec (fuel : nat) (n : Z) :
  0 <= n < 2 ^ Z.of_nat (S fuel) ->
  all_digits (natural_digits (S fuel) n) /\
  digits_value (natural_digits (S fuel) n) 0 = n /\
  exists d ds, natural_digits (S fuel) n = d :: ds /\ 0 <= d <= 9.
Proof.
  revert n. induction fuel as [|fuel IH]; intros n Hn.
  - cbn [natural_digits]. change (2 ^ Z.of_nat 1) with 2 in Hn.
    destruct (Z.ltb_spec n 10) as [_|H]; [|lia].
    split; [|split].
    + repeat constructor; lia.
    + cbn. lia.
    + exists n, []. split; [reflexivity | lia].
  - remember (S fuel) as fuel' eqn:Hfuel.
    cbn [natural_digits].
    destruct (Z.ltb_spec n 10) as [H|H].
    + split; [|split].
      * repeat constructor; lia.
      * cbn. lia.
      * exists n, []. split; [reflexivity | lia].
    + assert (Hdiv : 0 <= n / 10 < 2 ^ Z.of_nat fuel').
      { split; [apply Z.div_pos; lia|].
        apply Z.div_lt_upper_bound; [lia|].
        rewrite Nat2Z.inj_succ, Z.pow_succ_r in Hn by lia. lia. }
      destruct (IH (n / 10) Hdiv) as (Hall & Hvalue & d & ds & Hshape & Hd).
      pose proof (Z.mod_pos_bound n 10 ltac:(lia)) as Hmod.
      split; [|split].
      * apply Forall_app. split; [exact Hall|].
        repeat constructor; lia.
      * rewrite digits_value_app, Hvalue. cbn.
        pose proof (Z.div_mod n 10 ltac:(lia)). lia.
      * exists d, (ds ++ [n mod 10]).
        rewrite Hshape. split; [reflexivity | exact Hd].
Qed.

Lemma string_of_natural_spec (n : Z) :
  0 <= n ->
  exists d ds,
    string_of_natural n = string_of_digits (d :: ds) /\
    all_digits (d :: ds) /\ digits_value (d :: ds) 0 = n.
Proof.
  intros Hn. unfold string_of_natural.
  assert (Hfuel : 0 <= n < 2 ^ Z.of_nat (S (Z.to_nat (Z.log2 n)))).
  { split; [exact Hn|]. rewrite Nat2Z.inj_succ, Z2Nat.id by apply Z.log2_nonneg.
    destruct (Z.eq_dec n 0) as [->|Hpos]; [reflexivity|].
    apply Z.log2_spec. lia. }
  destruct (natural_digits_spec _ _ Hfuel) as (Hall & Hvalue & d & ds & Hshape & _).
  exists d, ds. rewrite <- Hshape. now split.
Qed.

(** *** The digits after the point *)

Lemma decimal_digits_spec (n : nat) (F : Z) :
  all_digits (decimal_digits n F) /\
  length (decimal_digits n F) = n /\
  digits_value (decimal_digits n F) 0 = F mod 10 ^ Z.of_nat n.
Proof.
  revert F. induction n as [|n IH]; intros F.
  - cbn [decimal_digits]. split; [constructor|]. split; [reflexivity|].
    change (10 ^ Z.of_nat 0) with 1. now rewrite Z.mod_1_r.
  - cbn [decimal_digits].
    destruct (IH (F / 10)) as (Hall & Hlength & Hvalue).
    pose proof (Z.mod_pos_bound F 10 ltac:(lia)) as Hmod.
    split; [|split].
    + apply Forall_app. split; [exact Hall|]. repeat constructor; lia.
    + rewrite length_app, Hlength. cbn. lia.
    + rewrite digits_value_app, Hvalue. cbn.
      rewrite Nat2Z.inj_succ, Z.pow_succ_r by lia.
      rewrite (Z.rem_mul_r F 10 (10 ^ Z.of_nat n)) by
        (try apply Z.pow_pos_nonneg; lia).
      lia.
Qed.

Lemma strip_trailing_zeros_rev_spec (ds : list Z) :
  exists j : nat, ds = repeat 0 j ++ strip_trailing_zeros_rev ds.
Proof.
  induction ds as [|d ds IH].
  - now exists O.
  - destruct (Z.eq_dec d 0) as [->|Hd].
    + cbn [strip_trailing_zeros_rev]. destruct IH as (j & Hj).
      exists (S j). cbn [repeat app]. now rewrite <- Hj.
    + exists O. destruct d; try reflexivity. now elim Hd.
Qed.

Lemma strip_trailing_zeros_spec (ds : list Z) :
  exists j : nat, ds = strip_trailing_zeros ds ++ repeat 0 j.
Proof.
  unfold strip_trailing_zeros.
  destruct (strip_trailing_zeros_rev_spec (rev ds)) as (j & Hj).
  exists j. rewrite <- (rev_involutive ds) at 1. rewrite Hj at 1.
  rewrite rev_app_distr. f_equal.
  clear. induction j as [|j IH]; [reflexivity|].
  cbn [repeat rev]. rewrite IH. clear.
  induction j as [|j IH]; [reflexivity|].
  cbn [repeat app]. now rewrite IH.
Qed.

(** What [decimal_value] reads after the integer part: the fraction, if
    there is one. *)
(** What [decimal_value] reads after the fraction: the exponent. *)
Lemma decimal_value_steps
      (text after rest : string) (whole ic fp fc e : Z) :
  read_sign text = (false, text) ->
  read_digits text 0 0 = (whole, ic, after) ->
  0 < ic ->
  read_fraction after = (fp, fc, rest) ->
  read_exponent rest = Some e ->
  forall negative : bool,
    decimal_value (put_sign negative text)
    = Some (let magnitude :=
              ((inject_Z whole + inject_Z fp * power_of 10 (- fc))
               * power_of 10 e)%Q in
            if negative then (- magnitude)%Q else magnitude).
Proof.
  intros Hsign Hint Hcount Hfrac Hexp negative.
  assert (Hsigned : read_sign (put_sign negative text) = (negative, text)).
  { destruct negative; [reflexivity | exact Hsign]. }
  unfold decimal_value. rewrite Hsigned, Hint.
  unfold read_fraction in Hfrac. rewrite Hfrac.
  unfold read_exponent in Hexp. rewrite Hexp.
  destruct (Z.ltb_spec 0 ic) as [_|H]; [reflexivity | lia].
Qed.

Lemma with_fraction_reads (whole F : Z) (k : nat) (rest : string) :
  0 <= whole -> 0 <= F < 10 ^ Z.of_nat k ->
  rest = EmptyString \/ (exists r, rest = String "e" r) ->
  let text :=
    with_fraction (string_of_natural whole) (decimal_digits k F) +:+ rest in
  read_sign text = (false, text) /\
  exists (ic : Z) (after : string) (fp fc : Z),
    read_digits text 0 0 = (whole, ic, after) /\
    0 < ic /\
    read_fraction after = (fp, fc, rest) /\
    (inject_Z fp * power_of 10 (- fc)
     == inject_Z F / inject_Z (10 ^ Z.of_nat k))%Q.
Proof.
  intros Hwhole HF Hrest text.
  destruct (string_of_natural_spec whole Hwhole) as (d & ds & Hs & Hall & Hvalue).
  destruct (decimal_digits_spec k F) as (HallF & HlengthF & HvalueF).
  rewrite Z.mod_small in HvalueF by exact HF.
  destruct (strip_trailing_zeros_spec (decimal_digits k F)) as (j & Hj).
  assert (Hd : 0 <= d <= 9) by now inversion Hall.
  assert (Hstop : no_digit_ahead rest).
  { destruct Hrest as [->|(r & ->)]; [exact Logic.I|reflexivity]. }
  assert (Hnone : read_fraction rest = (0, 0, rest)).
  { destruct Hrest as [->|(r & ->)]; reflexivity. }
  unfold text, with_fraction. rewrite Hs.
  destruct (strip_trailing_zeros (decimal_digits k F)) as [|f fs] eqn:Hstrip.
  - split; [now apply read_sign_digit|].
    exists (0 + Z.of_nat (length (d :: ds))), rest, 0, 0.
    split; [|split; [|split]].
    + rewrite read_digits_digits by assumption. now rewrite Hvalue.
    + cbn [length]. lia.
    + exact Hnone.
    + cbn [app] in Hj. rewrite Hj, digits_value_zeros in HvalueF.
      rewrite <- HvalueF, Z.mul_0_l. change (inject_Z 0) with 0%Q.
      unfold Qdiv. ring.
  - rewrite !append_assoc.
    split; [now apply read_sign_digit|].
    rewrite Hj in HallF, HlengthF, HvalueF.
    apply Forall_app in HallF as [Hfs _].
    rewrite length_app, repeat_length in HlengthF.
    rewrite digits_value_app, digits_value_zeros in HvalueF.
    exists (0 + Z.of_nat (length (d :: ds))),
      (String "." (string_of_digits (f :: fs) +:+ rest)),
      (digits_value (f :: fs) 0), (0 + Z.of_nat (length (f :: fs))).
    split; [|split; [|split]].
    + change ("." +:+ string_of_digits (f :: fs) +:+ rest)
        with (String "." (string_of_digits (f :: fs) +:+ rest)).
      rewrite read_digits_digits by (try assumption; reflexivity).
      now rewrite Hvalue.
    + cbn [length]. lia.
    + cbn [read_fraction]. now rewrite read_digits_digits by assumption.
    + rewrite <- HvalueF, <- HlengthF.
      set (m := length (f :: fs)).
      replace (- (0 + Z.of_nat m)) with (0 - Z.of_nat m) by lia.
      rewrite power_of_sub_frac by lia.
      rewrite Nat2Z.inj_add, Z.pow_add_r by lia.
      rewrite !inject_Z_mult. change (inject_Z (10 ^ 0)) with 1%Q.
      assert (~ (inject_Z (10 ^ Z.of_nat m) == 0)%Q)
        by (apply inject_Z_nonzero, Z.pow_pos_nonneg; lia).
      assert (~ (inject_Z (10 ^ Z.of_nat j) == 0)%Q)
        by (apply inject_Z_nonzero, Z.pow_pos_nonneg; lia).
      field. now split.
Qed.

Lemma whole_and_fraction (D k : Z) (fraction : Q) :
  0 <= k ->
  (fraction == inject_Z (D mod 10 ^ k) / inject_Z (10 ^ k))%Q ->
  (inject_Z (D / 10 ^ k) + fraction == inject_Z D * power_of 10 (- k))%Q.
Proof.
  intros Hk ->.
  assert (Hpow : 0 < 10 ^ k) by (apply Z.pow_pos_nonneg; lia).
  replace (- k) with (0 - k) by lia. rewrite power_of_sub_frac by lia.
  change (inject_Z (10 ^ 0)) with 1%Q.
  rewrite (Z.div_mod D (10 ^ k)) at 3 by lia.
  rewrite inject_Z_plus, inject_Z_mult.
  field. now apply inject_Z_nonzero.
Qed.

Lemma read_exponent_e (rest digits : string) (negative : bool) (e count : Z) :
  read_sign rest = (negative, digits) ->
  read_digits digits 0 0 = (e, count, EmptyString) ->
  0 < count ->
  read_exponent ("e" +:+ rest) = Some (if negative then - e else e).
Proof.
  intros Hsign Hdigits Hcount.
  change ("e" +:+ rest) with (String "e" rest).
  unfold read_exponent. rewrite Hsign, Hdigits.
  destruct (Z.ltb_spec 0 count) as [_|H]; [reflexivity | lia].
Qed.

Lemma read_exponent_spec (X : Z) :
  read_exponent
    ("e" +:+ (if X <? 0 then "-" else "+")
     +:+ (if Z.abs X <? 10 then "0" else "") +:+ string_of_natural (Z.abs X))
  = Some X.
Proof.
  destruct (string_of_natural_spec (Z.abs X) (Z.abs_nonneg X))
    as (d & ds & -> & Hall & Hvalue).
  set (pad := if Z.abs X <? 10 then [0] else []).
  assert (Hpad : (if Z.abs X <? 10 then "0" else "") +:+ string_of_digits (d :: ds)
                 = string_of_digits (pad ++ d :: ds) +:+ "").
  { rewrite append_empty_r. unfold pad. now destruct (Z.abs X <? 10). }
  assert (Hdigits : all_digits (pad ++ d :: ds)).
  { apply Forall_app. split; [|exact Hall].
    unfold pad. destruct (Z.abs X <? 10); repeat constructor; lia. }
  assert (Hval : digits_value (pad ++ d :: ds) 0 = Z.abs X).
  { rewrite digits_value_app. unfold pad.
    destruct (Z.abs X <? 10); exact Hvalue. }
  rewrite Hpad.
  rewrite (read_exponent_e _ (string_of_digits (pad ++ d :: ds) +:+ "")
             (X <? 0) (Z.abs X) (0 + Z.of_nat (length (pad ++ d :: ds)))).
  - f_equal. destruct (Z.ltb_spec X 0); lia.
  - now destruct (X <? 0).
  - rewrite read_digits_digits by (try exact Hdigits; exact Logic.I).
    now rewrite Hval.
  - rewrite length_app. cbn [length]. lia.
Qed.

(** The text that [put_positive] writes for six significant digits [D]
    and a decimal exponent [X] denotes [D * 10 ^ (X - 5)]. *)
Lemma put_positive_reads (num den D X : Z) (negative : bool) :
  significant_digits 6 num den = (D, X) ->
  100000 <= D < 1000000 ->
  exists q : Q,
    decimal_value (put_sign negative (put_positive 6 num den)) = Some q /\
    (q == (if negative then - 1 else 1)
          * (inject_Z D * power_of 10 (X - 5)))%Q.
Proof.
  intros Hdigits HD. unfold put_positive.
  change (6 =? 0) with false. cbv iota. rewrite Hdigits.
  set (sign := (if negative then - 1 else 1)%Q).
  assert (Hsign : forall magnitude : Q,
             ((if negative then - magnitude else magnitude)
              == sign * magnitude)%Q).
  { intros magnitude. unfold sign. destruct negative; ring. }
  destruct ((-4 <=? X) && (X <? 6)) eqn:Hfixed.
  - apply andb_true_iff in Hfixed as [Hlow Hhigh].
    apply Z.leb_le in Hlow. apply Z.ltb_lt in Hhigh.
    set (k := 6 - 1 - X).
    assert (Hk : 0 <= k) by (unfold k; lia).
    assert (Hpow : 0 < 10 ^ k) by (apply Z.pow_pos_nonneg; lia).
    pose proof (Z.mod_pos_bound D (10 ^ k) Hpow) as Hmod.
    destruct (with_fraction_reads (D / 10 ^ k) (D mod 10 ^ k) (Z.to_nat k) ""
                ltac:(apply Z.div_pos; lia)
                ltac:(rewrite Z2Nat.id by exact Hk; exact Hmod)
                ltac:(now left))
      as (Hs & ic & after & fp & fc & Hint & Hic & Hfrac & Hvalue).
    rewrite append_empty_r in Hs, Hint.
    rewrite Z2Nat.id in Hvalue by exact Hk.
    eexists. split.
    + apply (decimal_value_steps _ _ _ _ _ _ _ 0 Hs Hint Hic Hfrac eq_refl).
    + cbv zeta. rewrite Hsign. apply Qmult_comp; [reflexivity|].
      rewrite (whole_and_fraction D k _ Hk Hvalue).
      change (power_of 10 0) with 1%Q.
      replace (X - 5) with (- k) by (unfold k; lia). ring.
  - set (k := 6 - 1).
    assert (Hpow : 0 < 10 ^ k) by reflexivity.
    pose proof (Z.mod_pos_bound D (10 ^ k) Hpow) as Hmod.
    set (rest := "e" +:+ (if X <? 0 then "-" else "+")
                 +:+ (if Z.abs X <? 10 then "0" else "")
                 +:+ string_of_natural (Z.abs X)).
    destruct (with_fraction_reads (D / 10 ^ k) (D mod 10 ^ k) (Z.to_nat k) rest
                ltac:(apply Z.div_pos; lia)
                ltac:(exact Hmod)
                ltac:(right; eexists; reflexivity))
      as (Hs & ic & after & fp & fc & Hint & Hic & Hfrac & Hvalue).
    change (10 ^ Z.of_nat (Z.to_nat k)) with (10 ^ k) in Hvalue.
    eexists. split.
    + apply (decimal_value_steps _ _ _ _ _ _ _ X Hs Hint Hic Hfrac).
      apply read_exponent_spec.
    + cbv zeta. rewrite Hsign. apply Qmult_comp; [reflexivity|].
      rewrite (whole_and_fraction D k _ ltac:(unfold k; lia) Hvalue).
      replace (X - 5) with (- k + X) by (unfold k; lia).
      rewrite power_of_add by lia. ring.
Qed.

(** The six significant digits: the decimal exponent [X] of [num / den],
    the nearest multiple [N * 10 ^ (X - 5)], ties to even, and the same
    number with [N] below [10 ^ 6]. *)
Lemma significant_digits_spec (num den : Z) :
  0 < num -> 0 < den ->
  -1100 <= Z.log2 num - Z.log2 den <= 1100 ->
  let v := (inject_Z num / inject_Z den)%Q in
  let X := decimal_exponent num den in
  let N := round_scaled num den (5 - X) in
  (power_of 10 X <= v)%Q /\ (v < power_of 10 (X + 1))%Q /\
  100000 <= N <= 1000000 /\
  (Qabs (v - inject_Z N * power_of 10 (X - 5))
   <= (1 # 2) * power_of 10 (X - 5))%Q /\
  ((Qabs (v - inject_Z N * power_of 10 (X - 5))
    == (1 # 2) * power_of 10 (X - 5))%Q -> Z.even N = true) /\
  significant_digits 6 num den
  = (if N =? 1000000 then (100000, X + 1) else (N, X)).
Proof.
  intros Hnum Hden Hl v X N.
  destruct (decimal_exponent_spec num den Hnum Hden Hl) as [Hlow Hhigh].
  fold v X in Hlow, Hhigh.
  destruct (round_scaled_spec num den (5 - X) Hden) as [Hround Htie].
  fold v N in Hround, Htie.
  set (c := power_of 10 (X - 5)) in *.
  set (c' := power_of 10 (5 - X)) in *.
  assert (Hc : (0 < c)%Q) by (apply power_of_pos; lia).
  assert (Hc' : (0 < c')%Q) by (apply power_of_pos; lia).
  assert (Hcc : (c' * c == 1)%Q).
  { unfold c, c'. rewrite <- power_of_add by lia.
    now replace (5 - X + (X - 5)) with 0 by lia. }
  assert (Hscaled : (v - inject_Z N * c == (v * c' - inject_Z N) * c)%Q).
  { transitivity (v * (c' * c) - inject_Z N * c)%Q; [|ring].
    rewrite Hcc. ring. }
  assert (Habs : (Qabs (v - inject_Z N * c)
                  == Qabs (v * c' - inject_Z N) * c)%Q).
  { rewrite Hscaled, Qabs_Qmult, (Qabs_pos c) by now apply Qlt_le_weak.
    reflexivity. }
  assert (Hw1 : (100000 # 1 <= v * c')%Q).
  { change (100000 # 1)%Q with (power_of 10 5).
    replace 5 with (X + (5 - X)) at 1 by lia.
    rewrite power_of_add by lia. fold c'.
    apply Qmult_le_compat_r; [exact Hlow | now apply Qlt_le_weak]. }
  assert (Hw2 : (v * c' < 1000000 # 1)%Q).
  { change (1000000 # 1)%Q with (power_of 10 6).
    replace 6 with (X + 1 + (5 - X)) by lia.
    rewrite power_of_add by lia. fold c'.
    apply Qmult_lt_compat_r; [exact Hc' | exact Hhigh]. }
  split; [exact Hlow|]. split; [exact Hhigh|].
  split; [|split; [|split]].
  - apply Qabs_Qle_condition in Hround as [Hr1 Hr2].
    assert (H1 : (99999 # 1 < inject_Z N)%Q) by lra.
    assert (H2 : (inject_Z N < 1000001 # 1)%Q) by lra.
    unfold Qlt in H1, H2. cbn in H1, H2. lia.
  - rewrite Habs. apply Qmult_le_compat_r; [exact Hround|].
    now apply Qlt_le_weak.
  - intros H. apply Htie. rewrite Habs in H.
    apply Qmult_inj_r in H; [exact H|].
    intros Hzero. rewrite Hzero in Hc. now apply Qlt_irrefl in Hc.
  - reflexivity.
Qed.

Lemma digits2_pos_log2 (m : positive) :
  Z.pos (SpecFloat.digits2_pos m) = Z.log2 (Z.pos m) + 1.
Proof.
  assert (Hsize : forall p, SpecFloat.digits2_pos p = Pos.size p).
  { induction p as [p IH|p IH|]; cbn; now rewrite ?IH. }
  rewrite Hsize. destruct m as [p|p|]; cbn; lia.
Qed.

(** The mantissa and the exponent of a finite [double]. *)
Lemma finite_double_bounds (d : float) (s : bool) (m : positive) (e : Z) :
  Prim2SF d = S754_finite s m e ->
  -1074 <= e <= 971 /\ 0 <= Z.log2 (Z.pos m) <= 52.
Proof.
  intros Hd. pose proof (FloatAxioms.Prim2SF_valid d) as Hvalid.
  rewrite Hd in Hvalid. unfold SpecFloat.valid_binary, SpecFloat.bounded in Hvalid.
  apply andb_true_iff in Hvalid as [Hcanonical Hmax].
  unfold SpecFloat.canonical_mantissa, SpecFloat.fexp, SpecFloat.emin in Hcanonical.
  apply Z.eqb_eq in Hcanonical. apply Z.leb_le in Hmax.
  rewrite digits2_pos_log2 in Hcanonical.
  unfold FloatOps.prec, FloatOps.emax in *.
  pose proof (Z.log2_nonneg (Z.pos m)). lia.
Qed.

(** A positive finite [double] as the fraction that [put_double] prints. *)
Lemma finite_double_fraction (d : float) (s : bool) (m : positive) (e : Z) :
  Prim2SF d = S754_finite s m e ->
  exists num den : Z,
    0 < num /\ 0 < den /\
    -1100 <= Z.log2 num - Z.log2 den <= 1100 /\
    (inject_Z num / inject_Z den == inject_Z (Z.pos m) * power_of 2 e)%Q /\
    put_double 6 d = put_sign s (put_positive 6 num den).
Proof.
  intros Hd. destruct (finite_double_bounds d s m e Hd) as [He Hm].
  unfold put_double. rewrite Hd.
  destruct (Z.leb_spec 0 e) as [Hsign|Hsign].
  - exists (Z.pos m * 2 ^ e), 1.
    assert (0 < 2 ^ e) by (apply Z.pow_pos_nonneg; lia).
    split; [lia|]. split; [lia|]. split; [|split; [|reflexivity]].
    + rewrite Z.log2_mul_pow2 by lia. change (Z.log2 1) with 0. lia.
    + rewrite power_of_nonneg, inject_Z_mult by lia.
      change (inject_Z 1) with 1%Q. field.
  - exists (Z.pos m), (2 ^ (- e)).
    assert (0 < 2 ^ (- e)) by (apply Z.pow_pos_nonneg; lia).
    split; [lia|]. split; [lia|]. split; [|split; [|reflexivity]].
    + rewrite Z.log2_pow2 by lia. lia.
    + replace e with (0 - - e) at 2 by lia.
      rewrite power_of_sub_frac by lia. change (inject_Z (2 ^ 0)) with 1%Q.
      field. now apply inject_Z_nonzero.
Qed.

Lemma Qabs_signed (negative : bool) (a : Q) :
  (Qabs ((if negative then - 1 else 1) * a) == Qabs a)%Q.
Proof.
  destruct negative.
  - rewrite Qabs_Qmult. change (Qabs (- 1)) with 1%Q. ring.
  - now rewrite Qmult_1_l.
Qed.

Lemma decimal_digits_zero (n : nat) : decimal_digits n 0 = repeat 0 n.
Proof.
  induction n as [|n IH]; [reflexivity|].
  cbn [decimal_digits]. change (0 / 10) with 0. change (0 mod 10) with 0.
  rewrite IH. clear. induction n as [|n IH]; [reflexivity|].
  cbn [repeat app]. now rewrite IH.
Qed.

Lemma with_fraction_zero (text : string) (n : nat) :
  with_fraction text (decimal_digits n 0) = text.
Proof.
  unfold with_fraction, strip_trailing_zeros. rewrite decimal_digits_zero.
  assert (Hrev : rev (repeat 0 n) = repeat 0 n).
  { induction n as [|n IH]; [reflexivity|].
    cbn [repeat rev]. rewrite IH. clear.
    induction n as [|n IH]; [reflexivity|]. cbn [repeat app]. now rewrite IH. }
  rewrite Hrev.
  assert (Hstrip : strip_trailing_zeros_rev (repeat 0 n) = []).
  { clear. induction n as [|n IH]; [reflexivity | exact IH]. }
  now rewrite Hstrip.
Qed.

(** A whole number below [10 ^ 6] is printed with all its digits and
    nothing after them. *)
Lemma put_positive_integer (a den : Z) :
  0 < den -> 0 < a < 1000000 ->
  -1100 <= Z.log2 (a * den) - Z.log2 den <= 1100 ->
  put_positive 6 (a * den) den = string_of_natural a.
Proof.
  intros Hden Ha Hl.
  destruct (significant_digits_spec (a * den) den ltac:(nia) Hden Hl)
    as (Hlow & Hhigh & HN & _ & _ & Hdigits).
  set (X := decimal_exponent (a * den) den) in *.
  set (N := round_scaled (a * den) den (5 - X)) in *.
  assert (Hv : (inject_Z (a * den) / inject_Z den == inject_Z a)%Q).
  { rewrite inject_Z_mult. field. now apply inject_Z_nonzero. }
  rewrite Hv in Hlow, Hhigh.
  assert (HX : 0 <= X <= 5).
  { split.
    - assert (H : (power_of 10 0 < power_of 10 (X + 1))%Q).
      { eapply Qle_lt_trans; [|exact Hhigh].
        change (power_of 10 0) with (inject_Z 1). rewrite <- Zle_Qle. lia. }
      apply power_of_lt_inv in H; lia.
    - assert (H : (power_of 10 X < power_of 10 6)%Q).
      { eapply Qle_lt_trans; [exact Hlow|].
        change (power_of 10 6) with (inject_Z 1000000). rewrite <- Zlt_Qlt. lia. }
      apply power_of_lt_inv in H; lia. }
  rewrite power_of_nonneg in Hhigh by lia. rewrite <- Zlt_Qlt in Hhigh.
  assert (Hpow : 0 < 10 ^ (5 - X)) by (apply Z.pow_pos_nonneg; lia).
  assert (HNa : N = a * 10 ^ (5 - X)).
  { unfold N, round_scaled.
    destruct (Z.leb_spec 0 (5 - X)) as [_|H]; [|lia].
    replace (a * den * 10 ^ (5 - X)) with (a * 10 ^ (5 - X) * den) by ring.
    rewrite Z.div_mul, Z.mod_mul by lia.
    destruct (Z.ltb_spec den (2 * 0)) as [H|_]; [lia|].
    destruct (Z.eqb_spec den (2 * 0)) as [H|_]; [lia|]. reflexivity. }
  assert (Hbelow : N < 1000000).
  { rewrite HNa. change 1000000 with (10 ^ 6).
    replace 6 with (X + 1 + (5 - X)) by lia.
    rewrite (Z.pow_add_r 10 (X + 1)) by lia.
    apply Z.mul_lt_mono_pos_r; assumption. }
  destruct (Z.eqb_spec N 1000000) as [H|_]; [lia|].
  unfold put_positive. change (6 =? 0) with false. cbv iota.
  rewrite Hdigits.
  destruct (Z.leb_spec (-4) X) as [_|H]; [|lia].
  destruct (Z.ltb_spec X 6) as [_|H]; [|lia].
  cbn [andb]. replace (6 - 1 - X) with (5 - X) by lia.
  rewrite HNa, Z.div_mul, Z.mod_mul by lia.
  apply with_fraction_zero.
Qed.

(** A [double] that is a whole number of at most six digits is printed as
    that number, with a minus sign when it is negative and with neither a
    point nor an exponent. *)
Lemma put_double_integer (d : float) (x : Q) (n : Z) :
  double_value d = Some x -> (x == inject_Z n)%Q ->
  0 < Z.abs n < 1000000 ->
  put_double 6 d
  = (if n <? 0 then "-" else "") +:+ string_of_natural (Z.abs n).
Proof.
  intros Hvalue Hx Hn. unfold double_value in Hvalue.
  destruct (Prim2SF d) as [s|s| |s m e] eqn:Hd; try discriminate Hvalue.
  { injection Hvalue as <-. apply (inject_Z_injective 0 n) in Hx. lia. }
  injection Hvalue as <-.
  destruct (finite_double_fraction d s m e Hd)
    as (num & den & Hnum & Hden & Hl & Hfraction & ->).
  assert (Hsign : s = (n <? 0) /\
                  (inject_Z (Z.pos m) * power_of 2 e == inject_Z (Z.abs n))%Q).
  { assert (Hpos : (0 < inject_Z (Z.pos m) * power_of 2 e)%Q).
    { apply Qmult_lt_0_compat; [reflexivity|]. apply power_of_pos. lia. }
    destruct s.
    - change (Z.neg m) with (- Z.pos m) in Hx.
      rewrite inject_Z_opp in Hx.
      assert (Hneg : (inject_Z n < 0)%Q) by lra.
      change 0%Q with (inject_Z 0) in Hneg. rewrite <- Zlt_Qlt in Hneg.
      split; [now destruct (Z.ltb_spec n 0); [|lia]|].
      rewrite Z.abs_neq, inject_Z_opp by lia. rewrite <- Hx. ring.
    - assert (Hnonneg : (0 < inject_Z n)%Q) by lra.
      change 0%Q with (inject_Z 0) in Hnonneg. rewrite <- Zlt_Qlt in Hnonneg.
      split; [now destruct (Z.ltb_spec n 0); [lia|]|].
      rewrite Z.abs_eq by lia. exact Hx. }
  destruct Hsign as [-> Hmagnitude].
  rewrite <- Hfraction in Hmagnitude.
  assert (Hnumber : num = Z.abs n * den).
  { assert (H : (inject_Z num / inject_Z den
                 == inject_Z (Z.abs n) / inject_Z 1)%Q).
    { rewrite Hmagnitude. change (inject_Z 1) with 1%Q. field. }
    pose proof (proj1 (Qeq_frac num den (Z.abs n) 1 Hden eq_refl) H).
    lia. }
  subst num. rewrite put_positive_integer by assumption.
  unfold put_sign. now destruct (n <? 0).
Qed.

(** Does the character [c] occur in [text]? *)
Lemma mentions_app (c : ascii) (a b : string) :
  mentions c (a +:+ b) = mentions c a || mentions c b.
Proof.
  induction a as [|c' a IH]; [reflexivity|].
  change (mentions c (String c' (a +:+ b))
          = mentions c (String c' a) || mentions c b).
  cbn [mentions]. rewrite IH. now rewrite orb_assoc.
Qed.

Lemma mentions_digits (ds : list Z) :
  all_digits ds -> mentions "e" (string_of_digits ds) = false.
Proof.
  induction 1 as [|d ds Hd _ IH]; [reflexivity|].
  cbn [string_of_digits mentions]. rewrite IH.
  destruct (digit_cases d Hd) as [->|[->|[->|[->|[->|[->|[->|[->|[->| ->]]]]]]]]];
    reflexivity.
Qed.

Lemma mentions_natural (n : Z) :
  0 <= n -> mentions "e" (string_of_natural n) = false.
Proof.
  intros Hn. destruct (string_of_natural_spec n Hn) as (d & ds & -> & Hall & _).
  now apply mentions_digits.
Qed.

Lemma mentions_with_fraction (whole : Z) (k : nat) (F : Z) :
  0 <= whole ->
  mentions "e" (with_fraction (string_of_natural whole) (decimal_digits k F))
  = false.
Proof.
  intros Hwhole. unfold with_fraction.
  destruct (decimal_digits_spec k F) as (Hall & _ & _).
  destruct (strip_trailing_zeros_spec (decimal_digits k F)) as (j & Hj).
  rewrite Hj in Hall. apply Forall_app in Hall as [Hall _].
  destruct (strip_trailing_zeros (decimal_digits k F)) as [|f fs].
  - now apply mentions_natural.
  - rewrite !mentions_app, mentions_natural, mentions_digits by assumption.
    reflexivity.
Qed.

(** [put_positive] writes an exponent when the decimal exponent of the
    rounded number is below [-4] or not below the precision. *)
Lemma put_positive_notation (num den D X : Z) :
  significant_digits 6 num den = (D, X) -> 0 <= D ->
  mentions "e" (put_positive 6 num den) = negb ((-4 <=? X) && (X <? 6)).
Proof.
  intros Hdigits HD. unfold put_positive.
  change (6 =? 0) with false. cbv iota. rewrite Hdigits.
  destruct ((-4 <=? X) && (X <? 6)) eqn:Hfixed; cbn [negb].
  - apply andb_true_iff in Hfixed as [_ Hhigh]. apply Z.ltb_lt in Hhigh.
    apply mentions_with_fraction. apply Z.div_pos; [exact HD|].
    apply Z.pow_pos_nonneg; lia.
  - rewrite mentions_app, (mentions_app "e" "e"). cbn [mentions].
    change (Ascii.eqb "e" "e") with true. now rewrite orb_true_r.
Qed.

(** Six digits [D] with the exponent [X] lie between [10 ^ X] and
    [10 ^ (X + 1)]. *)
Lemma six_digits_range (D X : Z) :
  100000 <= D < 1000000 ->
  (power_of 10 X <= inject_Z D * power_of 10 (X - 5))%Q /\
  (inject_Z D * power_of 10 (X - 5) < power_of 10 (X + 1))%Q.
Proof.
  intros HD.
  assert (Hc : (0 < power_of 10 (X - 5))%Q) by (apply power_of_pos; lia).
  split.
  - replace X with (5 + (X - 5)) at 1 by lia. rewrite power_of_add by lia.
    apply Qmult_le_compat_r; [|now apply Qlt_le_weak].
    change (power_of 10 5) with (inject_Z 100000). rewrite <- Zle_Qle. lia.
  - replace (X + 1) with (6 + (X - 5)) by lia. rewrite power_of_add by lia.
    apply Qmult_lt_compat_r; [exact Hc|].
    change (power_of 10 6) with (inject_Z 1000000). rewrite <- Zlt_Qlt. lia.
Qed.

Lemma notation_by_magnitude (D X : Z) (w : Q) :
  100000 <= D < 1000000 ->
  (w == inject_Z D * power_of 10 (X - 5))%Q ->
  negb ((-4 <=? X) && (X <? 6)) = true
  <-> (w < power_of 10 (-4))%Q \/ (power_of 10 6 <= w)%Q.
Proof.
  intros HD Hw. destruct (six_digits_range D X HD) as [Hlow Hhigh].
  rewrite <- Hw in Hlow, Hhigh. split.
  - intros Hsci. apply negb_true_iff, andb_false_iff in Hsci.
    destruct Hsci as [H|H].
    + apply Z.leb_gt in H. left.
      eapply Qlt_le_trans; [exact Hhigh|]. apply power_of_le; lia.
    + apply Z.ltb_ge in H. right.
      eapply Qle_trans; [|exact Hlow]. apply power_of_le; lia.
  - intros [H|H]; apply negb_true_iff, andb_false_iff.
    + left. apply Z.leb_gt. apply (power_of_lt_inv 10); [lia|].
      eapply Qle_lt_trans; [exact Hlow | exact H].
    + right. apply Z.ltb_ge.
      assert (H' : 6 < X + 1); [|lia].
      apply (power_of_lt_inv 10); [lia|].
      eapply Qle_lt_trans; [exact H | exact Hhigh].
Qed.

Lemma mentions_put_sign (negative : bool) (text : string) :
  mentions "e" (put_sign negative text) = mentions "e" text.
Proof. now destruct negative. Qed.

(** A finite [double] that is not zero is printed as the nearest number of
    six significant digits, ties to even, with an exponent when that
    number is below [10 ^ -4] or not below [10 ^ 6]. *)
Lemma put_double_rounds (d : float) (x : Q) :
  double_value d = Some x -> ~ (x == 0)%Q ->
  exists (q : Q) (X N : Z),
    decimal_value (put_double 6 d) = Some q /\
    (power_of 10 X <= Qabs x)%Q /\ (Qabs x < power_of 10 (X + 1))%Q /\
    (Qabs q == inject_Z N * power_of 10 (X - 5))%Q /\
    (Qabs (x - q) <= (1 # 2) * power_of 10 (X - 5))%Q /\
    ((Qabs (x - q) == (1 # 2) * power_of 10 (X - 5))%Q -> Z.even N = true) /\
    (0 < x * q)%Q /\
    (mentions "e" (put_double 6 d) = true
     <-> (Qabs q < power_of 10 (-4))%Q \/ (power_of 10 6 <= Qabs q)%Q).
Proof.
  intros Hvalue Hnonzero. unfold double_value in Hvalue.
  destruct (Prim2SF d) as [s|s| |s m e] eqn:Hd; try discriminate Hvalue.
  { injection Hvalue as <-. now elim Hnonzero. }
  injection Hvalue as <-.
  destruct (finite_double_fraction d s m e Hd)
    as (num & den & Hnum & Hden & Hl & Hfraction & ->).
  destruct (significant_digits_spec num den Hnum Hden Hl)
    as (Hlow & Hhigh & HN & Hnear & Htie & Hdigits).
  set (v := (inject_Z num / inject_Z den)%Q) in *.
  set (X := decimal_exponent num den) in *.
  set (N := round_scaled num den (5 - X)) in *.
  set (sign := (if s then - 1 else 1)%Q).
  assert (Hx : (inject_Z (if s then Z.neg m else Z.pos m) * power_of 2 e
                == sign * v)%Q).
  { rewrite Hfraction. unfold sign. destruct s; [|ring].
    change (Z.neg m) with (- Z.pos m). rewrite inject_Z_opp. ring. }
  assert (Hv : (0 < v)%Q).
  { eapply Qlt_le_trans; [|exact Hlow]. apply power_of_pos. lia. }
  assert (Hc : (0 < power_of 10 (X - 5))%Q) by (apply power_of_pos; lia).
  assert (Hsame : exists D X' : Z,
             significant_digits 6 num den = (D, X') /\
             100000 <= D < 1000000 /\
             (inject_Z D * power_of 10 (X' - 5)
              == inject_Z N * power_of 10 (X - 5))%Q).
  { destruct (Z.eqb_spec N 1000000) as [Hcarry|Hcarry].
    - exists 100000, (X + 1). split; [exact Hdigits|]. split; [lia|].
      rewrite Hcarry. replace (X + 1 - 5) with (1 + (X - 5)) by lia.
      rewrite power_of_add by lia.
      change (power_of 10 1) with (inject_Z 10).
      change (inject_Z 1000000) with (inject_Z 100000 * inject_Z 10)%Q. ring.
    - exists N, X. split; [exact Hdigits|]. split; [lia | reflexivity]. }
  destruct Hsame as (D & X' & Hsig & HD & Hsame).
  destruct (put_positive_reads num den D X' s Hsig HD) as (q & Hread & Hq).
  fold sign in Hq.
  set (w := (inject_Z N * power_of 10 (X - 5))%Q) in *.
  assert (Hw : (0 < w)%Q).
  { unfold w. apply Qmult_lt_0_compat; [|exact Hc].
    unfold Qlt. cbn. lia. }
  assert (Hmagnitude : (Qabs q == inject_Z D * power_of 10 (X' - 5))%Q).
  { rewrite Hq. unfold sign. rewrite Qabs_signed, Hsame.
    apply Qabs_pos. now apply Qlt_le_weak. }
  rewrite Hsame in Hq.
  assert (Hdiff : (sign * v - q == sign * (v - w))%Q) by (rewrite Hq; ring).
  exists q, X, N. rewrite Hx.
  split; [exact Hread|].
  split; [|split; [|split; [|split; [|split; [|split]]]]].
  - unfold sign. rewrite Qabs_signed, Qabs_pos by now apply Qlt_le_weak.
    exact Hlow.
  - unfold sign. rewrite Qabs_signed, Qabs_pos by now apply Qlt_le_weak.
    exact Hhigh.
  - now rewrite Hmagnitude, Hsame.
  - rewrite Hdiff. unfold sign. rewrite Qabs_signed. exact Hnear.
  - rewrite Hdiff. unfold sign. rewrite Qabs_signed. exact Htie.
  - rewrite Hq.
    assert (Hsquare : (sign * v * (sign * w) == v * w)%Q).
    { unfold sign. destruct s; ring. }
    rewrite Hsquare. now apply Qmult_lt_0_compat.
  - rewrite mentions_put_sign, (put_positive_notation num den D X' Hsig) by lia.
    now apply (notation_by_magnitude D X').
Qed.

(** Zero is printed as [0], with the sign it has. *)
Lemma put_double_zero (d : float) (x : Q) :
  double_value d = Some x -> (x == 0)%Q ->
  put_double 6 d = "0" \/ put_double 6 d = "-0".
Proof.
  intros Hvalue Hzero. unfold double_value in Hvalue. unfold put_double.
  destruct (Prim2SF d) as [s|s| |s m e]; try discriminate Hvalue.
  - destruct s; [now right | now left].
  - injection Hvalue as <-. exfalso.
    apply Qmult_integral in Hzero as [H|H].
    + apply (inject_Z_injective _ 0) in H. now destruct s.
    + pose proof (power_of_pos 2 e ltac:(lia)) as Hpos.
      rewrite H in Hpos. now apply Qlt_irrefl in Hpos.
Qed.

(** C9, as the code has it: [PRINT] pops the top of the stack and goes
    on, and writes that value as [print_value] shows it, then a newline.
    Nil is shown as [nil], a boolean as [true] or [false], a string as its
    characters with no quotes.  A number is shown as the stream's default
    conversion of a [double] does, with six significant digits: a zero as
    [0] or [-0]; a whole number of at most six digits as these digits,
    with neither a point nor an exponent; any other finite number [x], of
    decimal exponent [X], as a text that denotes the multiple of
    [10 ^ (X - 5)] nearest to [x], the even one of two that are as near,
    in scientific notation when what it denotes is below [10 ^ -4] or not
    below [10 ^ 6]; an infinity as [inf] or [-inf].  (Of a NaN the program
    writes [nan] or [-nan], by a sign that a primitive [float] does not
    have: the texts are stated for values that are not NaN.) *)
Theorem print_writes_value_and_pops
        (chunk : Chunk) (vm : VM) (s : list Value) (top : Value) :
  at_opcode chunk vm Op_code.print ->
  stack_ vm = s ++ [top] ->
  (exists vm' : VM,
     iteration chunk vm = Ok break_ vm' /\
     ip_ vm' = ip_ vm + 1 /\
     stack_ vm' = s /\
     globals_ vm' = globals_ vm /\
     (is_NaN top = false ->
      exists traced : string,
        cout vm' = cout vm +:+ traced +:+ Ostream_visitor top +:+ newline) /\
     (Forall (fun v => is_NaN v = false) (stack_ vm) ->
      cout vm' = cout vm +:+ trace_text chunk vm
                 +:+ Ostream_visitor top +:+ newline)) /\
  Ostream_visitor Nil = "nil" /\
  Ostream_visitor (Bool true) = "true" /\
  Ostream_visitor (Bool false) = "false" /\
  (forall text : string, Ostream_visitor (Str text) = text) /\
  (forall (d : float) (x : Q),
      double_value d = Some x -> (x == 0)%Q ->
      Ostream_visitor (Num d) = "0" \/ Ostream_visitor (Num d) = "-0") /\
  (forall (d : float) (x : Q) (n : Z),
      double_value d = Some x -> (x == inject_Z n)%Q ->
      0 < Z.abs n < 1000000 ->
      Ostream_visitor (Num d)
      = (if n <? 0 then "-" else "") +:+ string_of_natural (Z.abs n)) /\
  (forall (d : float) (x : Q),
      double_value d = Some x -> ~ (x == 0)%Q ->
      exists (q : Q) (X N : Z),
        decimal_value (Ostream_visitor (Num d)) = Some q /\
        (power_of 10 X <= Qabs x)%Q /\ (Qabs x < power_of 10 (X + 1))%Q /\
        (Qabs q == inject_Z N * power_of 10 (X - 5))%Q /\
        (Qabs (x - q) <= (1 # 2) * power_of 10 (X - 5))%Q /\
        ((Qabs (x - q) == (1 # 2) * power_of 10 (X - 5))%Q ->
         Z.even N = true) /\
        (0 < x * q)%Q /\
        (mentions "e" (Ostream_visitor (Num d)) = true
         <-> (Qabs q < power_of 10 (-4))%Q \/ (power_of 10 6 <= Qabs q)%Q)) /\
  Ostream_visitor (Num 0) = "0" /\
  Ostream_visitor (Num (-0)) = "-0" /\
  Ostream_visitor (Num infinity) = "inf" /\
  Ostream_visitor (Num neg_infinity) = "-inf" /\
  Ostream_visitor (Num 7) = "7" /\
  Ostream_visitor (Num 0.5) = "0.5" /\
  Ostream_visitor (Num (-1234.5)) = "-1234.5" /\
  Ostream_visitor (Num 999999) = "999999" /\
  Ostream_visitor (Num 1000000) = "1e+06" /\
  Ostream_visitor (Num 1234567) = "1.23457e+06" /\
  Ostream_visitor (Num 0x1.921fb54442d18p+1) = "3.14159" /\
  Ostream_visitor (Num 0x1.a36e2eb1c432dp-14) = "0.0001" /\
  Ostream_visitor (Num 0x1.4f8b588e368f1p-17) = "1e-05".
Proof.
  intros (opcode & Hbyte & Hop) Hstack.
  assert (Hrun : iteration chunk vm
                 = Ok break_
                     {| ip_ := ip_ vm + 1; stack_ := s; globals_ := globals_ vm;
                        cout := cout vm +:+ trace_text chunk vm
                                +:+ Ostream_visitor top +:+ newline |}).
  { rewrite (iteration_execute _ _ _ _ Hbyte Hop).
    run_code. rewrite Hstack. run_code. unfold print_value.
    now rewrite !append_assoc. }
  split.
  { eexists. split; [exact Hrun|]. cbn [ip_ stack_ globals_ cout].
    split; [reflexivity|]. split; [reflexivity|]. split; [reflexivity|].
    split; [|reflexivity].
    intros _. now exists (trace_text chunk vm). }
  split; [reflexivity|]. split; [reflexivity|]. split; [reflexivity|].
  split; [reflexivity|].
  split; [exact put_double_zero|].
  split; [exact put_double_integer|].
  split; [exact put_double_rounds|].
  repeat split; vm_compute; reflexivity.
Qed.

(** ** Assignment *)

(** C10, as the code has it: with a value on top of the stack,
    [SET_LOCAL] of a slot that exists overwrites that slot with the top
    value and changes no other slot, so that the depth and the top are as
    before; [SET_GLOBAL] of a bound name rebinds the name and leaves the
    whole stack as it was; [DEFINE_GLOBAL] binds the name and pops the
    value. *)
Theorem assignment_keeps_value_on_top
        (chunk : Chunk) (vm : VM) (s : list Value) (top : Value) (operand : byte) :
  stack_ vm = s ++ [top] ->
  byte_at chunk (ip_ vm + 1) = Some operand ->
  let slot := Z.to_nat (index_of operand) in
  let stack' := <[slot := top]> (stack_ vm) in
  (at_opcode chunk vm Op_code.set_local ->
   (slot < length (stack_ vm))%nat ->
   iteration chunk vm
   = Ok break_ {| ip_ := ip_ vm + 2; stack_ := stack';
                  globals_ := globals_ vm;
                  cout := cout vm +:+ trace_text chunk vm |}
   /\ length stack' = length (stack_ vm)
   /\ last stack' = Some top
   /\ stack' !! slot = Some top
   /\ forall other, other <> slot -> stack' !! other = stack_ vm !! other) /\
  (forall name : string,
     at_opcode chunk vm Op_code.set_global ->
     constants chunk !! slot = Some (Str name) ->
     is_Some (globals_ vm !! name) ->
     iteration chunk vm
     = Ok break_ {| ip_ := ip_ vm + 2; stack_ := stack_ vm;
                    globals_ := <[name := top]> (globals_ vm);
                    cout := cout vm +:+ trace_text chunk vm |}) /\
  (forall name : string,
     at_opcode chunk vm Op_code.define_global ->
     constants chunk !! slot = Some (Str name) ->
     iteration chunk vm
     = Ok break_ {| ip_ := ip_ vm + 2; stack_ := s;
                    globals_ := <[name := top]> (globals_ vm);
                    cout := cout vm +:+ trace_text chunk vm |}).
Proof.
  intros Hstack Hoperand slot stack'. split; [|split].
  - intros (opcode & Hbyte & Hop) Hslot.
    destruct (lookup_lt_is_Some_2 _ _ Hslot) as (old & Hold).
    split; [|split; [|split; [|split]]].
    + rewrite (iteration_execute _ _ _ _ Hbyte Hop).
      run_code. rewrite Hoperand. run_code. rewrite Hstack. run_code.
      rewrite <- Hstack. fold slot. rewrite Hold.
      do 2 f_equal. lia.
    + apply length_insert.
    + unfold stack'. rewrite Hstack in *.
      rewrite length_app in Hslot. cbn in Hslot.
      destruct (decide (slot = length s)) as [->|Hne].
      * rewrite list_insert_id by apply list_lookup_middle, eq_refl.
        apply last_snoc.
      * rewrite insert_app_l by lia. apply last_snoc.
    + now apply list_lookup_insert_eq.
    + intros other Hother. now apply list_lookup_insert_ne.
  - intros name (opcode & Hbyte & Hop) Hconstant (old & Hold).
    rewrite (iteration_execute _ _ _ _ Hbyte Hop).
    run_code. rewrite Hoperand. run_code. fold slot. rewrite Hconstant.
    run_code. rewrite Hold, Hstack. run_code. do 2 f_equal. lia.
  - intros name (opcode & Hbyte & Hop) Hconstant.
    rewrite (iteration_execute _ _ _ _ Hbyte Hop).
    run_code. rewrite Hoperand. run_code. fold slot. rewrite Hconstant.
    run_code. rewrite Hstack. run_code. do 2 f_equal. lia.
Qed.

(** ** The depth of the stack *)

Lemma depth_bind {A B} (m : M A) (k : A -> M B) (d1 d2 d : Z) :
  changes_depth_by m d1 -> (forall a, changes_depth_by (k a) d2) ->
  d = d1 + d2 ->
  changes_depth_by (bind m k) d.
Proof.
  intros Hm Hk -> vm b vm'. unfold bind.
  destruct (m vm) as [a vm1|e vm1|] eqn:E; try discriminate.
  intros Hk'. rewrite (Hk a vm1 b vm' Hk'), (Hm vm a vm1 E). lia.
Qed.

Lemma depth_throw {A} (e : Exception) (d : Z) : changes_depth_by (@throw A e) d.
Proof. intros vm a vm'. discriminate. Qed.

(** Code that, ending normally, leaves the stack as it is. *)
Lemma depth_kept {A} (m : M A) :
  (forall vm a vm', m vm = Ok a vm' -> stack_ vm' = stack_ vm) ->
  changes_depth_by m 0.
Proof. intros H vm a vm' E. rewrite (H vm a vm' E). lia. Qed.

Lemma depth_ret {A} (a : A) : changes_depth_by (ret a) 0.
Proof. apply depth_kept. intros vm b vm' [= _ <-]. reflexivity. Qed.

Lemma depth_read_byte (chunk : Chunk) : changes_depth_by (read_byte chunk) 0.
Proof.
  apply depth_kept. intros vm b vm'. unfold read_byte.
  destruct (byte_at chunk (ip_ vm)); [intros [= _ <-]; reflexivity | discriminate].
Qed.

Lemma depth_read_uint16 (chunk : Chunk) :
  changes_depth_by (read_uint16 host chunk) 0.
Proof.
  apply depth_kept. intros vm n vm'. unfold read_uint16.
  destruct (byte_at chunk (ip_ vm)), (byte_at chunk (ip_ vm + 1));
    try discriminate. intros [= _ <-]. reflexivity.
Qed.

Lemma depth_advance (n : Z) : changes_depth_by (advance n) 0.
Proof. apply depth_kept. intros vm u vm' [= _ <-]. reflexivity. Qed.

Lemma depth_push_back (value : Value) : changes_depth_by (push_back value) 1.
Proof.
  intros vm u vm' [= _ <-]. cbn [stack_]. rewrite length_app. cbn. lia.
Qed.

Lemma depth_back : changes_depth_by back 0.
Proof.
  apply depth_kept. intros vm v vm'. unfold back.
  destruct (last (stack_ vm)); [intros [= _ <-]; reflexivity | discriminate].
Qed.

Lemma depth_pop_back : changes_depth_by pop_back (-1).
Proof.
  intros vm u vm'. unfold pop_back.
  destruct (last (stack_ vm)) as [top|] eqn:E; [|discriminate].
  apply last_Some in E as (s & E). intros [= _ <-]. cbn [stack_].
  rewrite E, removelast_last, length_app. cbn. lia.
Qed.

Lemma depth_stack_at (slot : Z) : changes_depth_by (stack_at slot) 0.
Proof.
  apply depth_kept. intros vm v vm'. unfold stack_at.
  destruct (stack_ vm !! Z.to_nat slot); [intros [= _ <-]; reflexivity | discriminate].
Qed.

Lemma depth_stack_at_assign (slot : Z) (value : Value) :
  changes_depth_by (stack_at_assign slot value) 0.
Proof.
  intros vm u vm'. unfold stack_at_assign.
  destruct (stack_ vm !! Z.to_nat slot); [|discriminate].
  intros [= _ <-]. cbn [stack_]. rewrite length_insert. lia.
Qed.

Lemma depth_constants_at (chunk : Chunk) (k : Z) :
  changes_depth_by (constants_at chunk k) 0.
Proof.
  apply depth_kept. intros vm v vm'. unfold constants_at.
  destruct (constants chunk !! Z.to_nat k); [intros [= _ <-]; reflexivity | discriminate].
Qed.

Lemma depth_get_string (value : Value) : changes_depth_by (get_string value) 0.
Proof. destruct value; first [apply depth_ret | apply depth_throw]. Qed.

Lemma depth_get_double (value : Value) : changes_depth_by (get_double value) 0.
Proof. destruct value; first [apply depth_ret | apply depth_throw]. Qed.

Lemma depth_globals_find (name : string) : changes_depth_by (globals_find name) 0.
Proof. apply depth_kept. intros vm v vm' [= _ <-]. reflexivity. Qed.

Lemma depth_globals_assign (name : string) (value : Value) :
  changes_depth_by (globals_assign name value) 0.
Proof. apply depth_kept. intros vm v vm' [= _ <-]. reflexivity. Qed.

Lemma depth_cout_put (text : string) : changes_depth_by (cout_put text) 0.
Proof. apply depth_kept. intros vm v vm' [= _ <-]. reflexivity. Qed.

Lemma depth_do_print_value (value : Value) :
  changes_depth_by (do_print_value value) 0.
Proof. apply depth_kept. intros vm v vm' [= _ <-]. reflexivity. Qed.

Lemma depth_Plus_visitor (lhs rhs : Value) :
  changes_depth_by (Plus_visitor lhs rhs) 0.
Proof. destruct lhs, rhs; first [apply depth_ret | apply depth_throw]. Qed.

(** Splits monadic code into its steps, finds the change each makes and
    adds them up. *)
Ltac depth :=
  repeat first
    [ eapply depth_bind; [| intros ? |]
    | match goal with
      | |- changes_depth_by (match ?x with _ => _ end) _ => destruct x
      | |- changes_depth_by (if ?b then _ else _) _ => destruct b
      end
    | apply depth_throw
    | apply depth_ret | apply depth_read_byte | apply depth_read_uint16
    | apply depth_advance | apply depth_push_back | apply depth_back
    | apply depth_pop_back | apply depth_stack_at | apply depth_stack_at_assign
    | apply depth_constants_at | apply depth_get_string | apply depth_get_double
    | apply depth_globals_find | apply depth_globals_assign
    | apply depth_cout_put | apply depth_do_print_value
    | apply depth_Plus_visitor
    | reflexivity ].

Lemma depth_execute (chunk : Chunk) (instruction : Op_code.t) :
  changes_depth_by (execute chunk instruction) (stack_effect instruction).
Proof.
  destruct instruction; unfold execute, binary_number_op, stack_effect; depth.
Qed.

(** Every instruction that ends normally changes the depth of the stack
    by the amount fixed for its opcode: the pushes by one more, the
    instructions that consume a value by one less, the others by nothing;
    a byte that is no opcode changes nothing. *)
Theorem instruction_stack_effect
        (chunk : Chunk) (vm : VM) (opcode : byte) (flow : Flow) (vm' : VM) :
  byte_at chunk (ip_ vm) = Some opcode ->
  iteration chunk vm = Ok flow vm' ->
  Z.of_nat (length (stack_ vm'))
  = Z.of_nat (length (stack_ vm))
    + match to_Op_code opcode with
      | Some instruction => stack_effect instruction
      | None => 0
      end.
Proof.
  intros Hbyte. destruct (to_Op_code opcode) as [instruction|] eqn:Hop.
  - rewrite (iteration_execute _ _ _ _ Hbyte Hop). intros E.
    now rewrite (depth_execute chunk instruction _ _ _ E).
  - rewrite (iteration_no_case _ _ _ Hbyte Hop). intros [= _ <-].
    cbn [stack_ fetched]. lia.
Qed.

(** ** Arithmetic and comparison of two numbers *)

(** On two numbers, [SUBTRACT], [MULTIPLY] and [DIVIDE] push the IEEE
    result and [GREATER] and [LESS] push the IEEE comparison; none can
    throw, a division by zero included. *)
Theorem arithmetic_of_two_numbers
        (chunk : Chunk) (vm : VM) (s : list Value) (l r : float) :
  stack_ vm = s ++ [Num l; Num r] ->
  let pushed value :=
    Ok break_ {| ip_ := ip_ vm + 1; stack_ := s ++ [value];
                 globals_ := globals_ vm;
                 cout := cout vm +:+ trace_text chunk vm |} in
  (at_opcode chunk vm Op_code.subtract ->
   iteration chunk vm = pushed (Num (l - r)%float)) /\
  (at_opcode chunk vm Op_code.multiply ->
   iteration chunk vm = pushed (Num (l * r)%float)) /\
  (at_opcode chunk vm Op_code.divide ->
   iteration chunk vm = pushed (Num (l / r)%float)) /\
  (at_opcode chunk vm Op_code.greater ->
   iteration chunk vm = pushed (Bool (SFltb (Prim2SF r) (Prim2SF l)))) /\
  (at_opcode chunk vm Op_code.less ->
   iteration chunk vm = pushed (Bool (SFltb (Prim2SF l) (Prim2SF r)))).
Proof.
  intros Hstack pushed. unfold pushed.
  repeat split; intros (opcode & Hbyte & Hop);
    rewrite (iteration_execute _ _ _ _ Hbyte Hop);
    run_code; rewrite Hstack; run_code;
    rewrite <- ?FloatAxioms.ltb_spec; reflexivity.
Qed.

(** ** Locals *)

(** Locals are slots of the stack, counted from its bottom: [GET_LOCAL]
    pushes a copy of the slot its operand names, and both [GET_LOCAL] and
    [SET_LOCAL] of a slot at or above the depth of the stack throw
    [std::out_of_range], which is not a [VM_error]; neither creates a
    slot. *)
Theorem local_slots_are_stack_slots
        (chunk : Chunk) (vm : VM) (operand : byte) :
  byte_at chunk (ip_ vm + 1) = Some operand ->
  let slot := Z.to_nat (index_of operand) in
  (forall value : Value,
     at_opcode chunk vm Op_code.get_local ->
     stack_ vm !! slot = Some value ->
     iteration chunk vm
     = Ok break_ {| ip_ := ip_ vm + 2; stack_ := stack_ vm ++ [value];
                    globals_ := globals_ vm;
                    cout := cout vm +:+ trace_text chunk vm |}) /\
  (at_opcode chunk vm Op_code.get_local \/
   (at_opcode chunk vm Op_code.set_local /\ stack_ vm <> []) ->
   (length (stack_ vm) <= slot)%nat ->
   iteration chunk vm
   = Throw out_of_range {| ip_ := ip_ vm + 2; stack_ := stack_ vm;
                           globals_ := globals_ vm;
                           cout := cout vm +:+ trace_text chunk vm |}).
Proof.
  intros Hoperand slot. split.
  - intros value (opcode & Hbyte & Hop) Hslot.
    rewrite (iteration_execute _ _ _ _ Hbyte Hop).
    run_code. rewrite Hoperand. run_code. fold slot. rewrite Hslot.
    run_code. do 2 f_equal. lia.
  - intros Hat Hslot. apply lookup_ge_None_2 in Hslot.
    destruct Hat as [(opcode & Hbyte & Hop)|[(opcode & Hbyte & Hop) Hstack]];
      rewrite (iteration_execute _ _ _ _ Hbyte Hop);
      run_code; rewrite Hoperand; run_code; fold slot.
    + rewrite Hslot. do 2 f_equal. lia.
    + destruct (last (stack_ vm)) as [top|] eqn:Htop.
      * run_code. fold slot. rewrite Hslot. do 2 f_equal. lia.
      * apply last_None in Htop. now elim Hstack.
Qed.

(** ** Fuel *)

(** A call of [run] that has ended, by [return] or by an exception, ends
    the same way with any more fuel. *)
Theorem run_more_fuel (fuel more : nat) (chunk : Chunk) (vm : VM) :
  match run fuel chunk vm with
  | Still_running _ => True
  | outcome => run (fuel + more) chunk vm = outcome
  end.
Proof.
  revert vm. induction fuel as [|fuel IH]; intros vm; [exact I|].
  cbn [run Nat.add].
  destruct (iteration chunk vm) as [[|] vm1|e vm1|]; try reflexivity.
  apply IH.
Qed.

(** * More of [VM::run] *)

(** Runs the code of an instruction inside a hypothesis that says how it
    ended, case by case. *)
Ltac exec_in H :=
  unfold execute, binary_number_op, read_byte, read_uint16, advance,
    push_back, back, pop_back, stack_at, stack_at_assign, constants_at,
    get_string, get_double, globals_find, globals_assign, cout_put,
    do_print_value, Plus_visitor, fetched in H;
  unfold bind, ret, throw in H;
  cbn [ip_ stack_ globals_ cout] in H;
  repeat match type of H with
         | context [match ?x with _ => _ end] =>
             lazymatch x with
             | context [match _ with _ => _ end] => fail
             | _ => destruct x eqn:?; cbn [ip_ stack_ globals_ cout] in H;
                    try discriminate H
             end
         end.

(** ** The instruction pointer *)

(** An instruction that ends normally leaves the instruction pointer
    just past its operand bytes, unless it is a jump: [JUMP] and
    [JUMP_IF_FALSE] only move it forwards, to at least the next
    instruction, and [LOOP] never moves it forwards. A byte that is no
    opcode is stepped over. *)
Theorem instruction_pointer_after
        (chunk : Chunk) (vm : VM) (opcode : byte) (flow : Flow) (vm' : VM) :
  byte_at chunk (ip_ vm) = Some opcode ->
  iteration chunk vm = Ok flow vm' ->
  match to_Op_code opcode with
  | Some Op_code.jump | Some Op_code.jump_if_false =>
      ip_ vm + 3 <= ip_ vm' < ip_ vm + 3 + 65536
  | Some Op_code.loop => ip_ vm - 65536 < ip_ vm' <= ip_ vm
  | Some instruction => ip_ vm' = ip_ vm + 1 + operand_bytes instruction
  | None => ip_ vm' = ip_ vm + 1
  end.
Proof.
  intros Hbyte H. destruct (to_Op_code opcode) as [instruction|] eqn:Hop.
  - rewrite (iteration_execute _ _ _ _ Hbyte Hop) in H.
    destruct instruction; exec_in H; injection H as <- <-;
      cbn [ip_ operand_bytes];
      try match goal with
          | |- context [uint16_of_bytes host ?a ?b] =>
              pose proof (uint16_of_bytes_range a b)
          end; lia.
  - rewrite (iteration_no_case _ _ _ Hbyte Hop) in H.
    injection H as <- <-. reflexivity.
Qed.

(** ** The stack below the operands *)

(** As [exec_in], for a state whose stack is known by the equation
    [Hstack]. *)
Ltac exec_on_stack H Hstack :=
  unfold execute, binary_number_op, read_byte, read_uint16, advance,
    push_back, back, pop_back, stack_at, stack_at_assign, constants_at,
    get_string, get_double, globals_find, globals_assign, cout_put,
    do_print_value, Plus_visitor, fetched in H;
  unfold bind, ret, throw in H;
  cbn [ip_ stack_ globals_ cout] in H;
  rewrite ?Hstack in H;
  repeat first
    [ progress (rewrite ?app_nil_r, ?last_snoc, ?removelast_last, ?last_two,
                  ?removelast_two in H;
                cbn [ip_ stack_ globals_ cout] in H)
    | match type of H with
      | context [match ?x with _ => _ end] =>
          lazymatch x with
          | context [match _ with _ => _ end] => fail
          | _ => destruct x eqn:?; cbn [ip_ stack_ globals_ cout] in H;
                 try discriminate H
          end
      end ].

(** No instruction but [SET_LOCAL] touches the stack below the values it
    reads: with its operands on top of [s], whether it ends normally or
    throws, the stack it leaves is [s] with some values on top. *)
Theorem stack_below_operands_is_kept
        (chunk : Chunk) (vm : VM) (instruction : Op_code.t)
        (s operands_on_top : list Value) :
  at_opcode chunk vm instruction ->
  instruction <> Op_code.set_local ->
  stack_ vm = s ++ operands_on_top ->
  length operands_on_top = operands instruction ->
  match iteration chunk vm with
  | Ok _ vm' | Throw _ vm' => exists results : list Value, stack_ vm' = s ++ results
  | Undefined => True
  end.
Proof.
  intros (opcode & Hbyte & Hop) Hnot Hstack Hlength.
  rewrite (iteration_execute _ _ _ _ Hbyte Hop).
  destruct (execute chunk instruction (fetched chunk vm))
    as [flow vm'|e vm'|] eqn:H; [| |exact I].
  - destruct instruction; try (now elim Hnot);
      destruct operands_on_top as [|a [|b [|c rest]]]; try discriminate Hlength;
      exec_on_stack H Hstack; try discriminate H;
      injection H as <- <-; cbn [stack_];
      rewrite ?app_nil_r;
      first [ now eexists | exists []; now rewrite app_nil_r ].
  - destruct instruction; try (now elim Hnot);
      destruct operands_on_top as [|a [|b [|c rest]]]; try discriminate Hlength;
      exec_on_stack H Hstack; try discriminate H;
      injection H as <- <-; cbn [stack_];
      rewrite ?app_nil_r;
      first [ now eexists | exists []; now rewrite app_nil_r ].
Qed.

(** ** Undefined behaviour *)



(** On an empty stack, every instruction without operand bytes that
    reads the stack has undefined behaviour: there is no check for
    underflow. *)
Theorem underflow_is_undefined
        (chunk : Chunk) (vm : VM) (instruction : Op_code.t) :
  at_opcode chunk vm instruction ->
  stack_ vm = [] ->
  operand_bytes instruction = 0 ->
  (0 < operands instruction)%nat ->
  iteration chunk vm = Undefined.
Proof.
  intros (opcode & Hbyte & Hop) Hstack Hbytes Hreads.
  rewrite (iteration_execute _ _ _ _ Hbyte Hop).
  destruct instruction; cbn in Hbytes, Hreads; try discriminate Hbytes;
    try lia; run_code; rewrite Hstack; reflexivity.
Qed.

(** ** Constants *)

(** [CONSTANT] pushes the constant its operand indexes; an index past
    the end of the constants throws [std::out_of_range] with the stack as
    it was. [NIL], [TRUE] and [FALSE] push their value and cannot fail. *)
Theorem constant_is_bounds_checked
        (chunk : Chunk) (vm : VM) (operand : byte) :
  let pushed ip value :=
    Ok break_ {| ip_ := ip; stack_ := stack_ vm ++ [value];
                 globals_ := globals_ vm;
                 cout := cout vm +:+ trace_text chunk vm |} in
  (at_opcode chunk vm Op_code.constant ->
   byte_at chunk (ip_ vm + 1) = Some operand ->
   (forall value,
      constants chunk !! Z.to_nat (index_of operand) = Some value ->
      iteration chunk vm = pushed (ip_ vm + 2) value) /\
   ((length (constants chunk) <= Z.to_nat (index_of operand))%nat ->
    iteration chunk vm
    = Throw out_of_range {| ip_ := ip_ vm + 2; stack_ := stack_ vm;
                            globals_ := globals_ vm;
                            cout := cout vm +:+ trace_text chunk vm |})) /\
  (at_opcode chunk vm Op_code.nil -> iteration chunk vm = pushed (ip_ vm + 1) Nil) /\
  (at_opcode chunk vm Op_code.true_ ->
   iteration chunk vm = pushed (ip_ vm + 1) (Bool true)) /\
  (at_opcode chunk vm Op_code.false_ ->
   iteration chunk vm = pushed (ip_ vm + 1) (Bool false)).
Proof.
  intros pushed. unfold pushed. repeat split.
  - intros value Hvalue. destruct H as (opcode & Hbyte & Hop).
    rewrite (iteration_execute _ _ _ _ Hbyte Hop).
    run_code. rewrite H0. run_code. rewrite Hvalue. run_code.
    do 2 f_equal. lia.
  - intros Hpast. apply lookup_ge_None_2 in Hpast.
    destruct H as (opcode & Hbyte & Hop).
    rewrite (iteration_execute _ _ _ _ Hbyte Hop).
    run_code. rewrite H0. run_code. rewrite Hpast.
    do 2 f_equal. lia.
  - intros (opcode & Hbyte & Hop).
    now rewrite (iteration_execute _ _ _ _ Hbyte Hop).
  - intros (opcode & Hbyte & Hop).
    now rewrite (iteration_execute _ _ _ _ Hbyte Hop).
  - intros (opcode & Hbyte & Hop).
    now rewrite (iteration_execute _ _ _ _ Hbyte Hop).
Qed.

(** ** Globals: reading, errors of the operand, what changes them *)

(** [GET_GLOBAL] of a bound name pushes the value bound to it and leaves
    the globals as they are. *)
Lemma get_global_pushes_binding
      (chunk : Chunk) (vm : VM) (operand : byte) (name : string) (bound : Value) :
  at_opcode chunk vm Op_code.get_global ->
  byte_at chunk (ip_ vm + 1) = Some operand ->
  constants chunk !! Z.to_nat (index_of operand) = Some (Str name) ->
  globals_ vm !! name = Some bound ->
  iteration chunk vm
  = Ok break_ {| ip_ := ip_ vm + 2; stack_ := stack_ vm ++ [bound];
                 globals_ := globals_ vm;
                 cout := cout vm +:+ trace_text chunk vm |}.
Proof.
  intros (opcode & Hbyte & Hop) Hoperand Hconstant Hbound.
  rewrite (iteration_execute _ _ _ _ Hbyte Hop).
  run_code. rewrite Hoperand. run_code. rewrite Hconstant. run_code.
  rewrite Hbound. run_code. do 2 f_equal. lia.
Qed.

(** The three instructions on globals take the name from the constant
    their operand indexes. When the index is past the end of the
    constants they throw [std::out_of_range], and when the constant is
    not a string they throw [boost::bad_get]; in both cases the stack and
    the globals are as they were, whatever the stack holds. *)
Theorem global_name_operand_errors
        (chunk : Chunk) (vm : VM) (operand : byte) :
  at_opcode chunk vm Op_code.get_global \/ at_opcode chunk vm Op_code.set_global
  \/ at_opcode chunk vm Op_code.define_global ->
  byte_at chunk (ip_ vm + 1) = Some operand ->
  let after := {| ip_ := ip_ vm + 2; stack_ := stack_ vm;
                  globals_ := globals_ vm;
                  cout := cout vm +:+ trace_text chunk vm |} in
  ((length (constants chunk) <= Z.to_nat (index_of operand))%nat ->
   iteration chunk vm = Throw out_of_range after) /\
  (forall constant : Value,
     constants chunk !! Z.to_nat (index_of operand) = Some constant ->
     which constant <> which_string ->
     iteration chunk vm = Throw bad_get after).
Proof.
  intros Hat Hoperand after. unfold after. split.
  - intros Hpast. apply lookup_ge_None_2 in Hpast.
    destruct Hat as [H|[H|H]]; destruct H as (opcode & Hbyte & Hop);
      rewrite (iteration_execute _ _ _ _ Hbyte Hop);
      run_code; rewrite Hoperand; run_code; rewrite Hpast;
      do 2 f_equal; lia.
  - intros constant Hconstant Hwhich.
    destruct Hat as [H|[H|H]]; destruct H as (opcode & Hbyte & Hop);
      rewrite (iteration_execute _ _ _ _ Hbyte Hop);
      run_code; rewrite Hoperand; run_code; rewrite Hconstant;
      (destruct constant; [now elim Hwhich| | |]); do 2 f_equal; lia.
Qed.

(** What [DEFINE_GLOBAL] binds, the [GET_GLOBAL] that follows reads:
    with [DEFINE_GLOBAL k] at the instruction pointer and [GET_GLOBAL k]
    after it, two iterations leave the stack as it was, the value on top
    included, and the name bound to that value, whether or not it was
    bound before; no other name's binding changes. *)
Theorem define_then_get_global
        (chunk : Chunk) (vm : VM) (s : list Value) (top : Value)
        (define get operand : byte) (name : string) :
  stack_ vm = s ++ [top] ->
  byte_at chunk (ip_ vm) = Some define ->
  to_Op_code define = Some Op_code.define_global ->
  byte_at chunk (ip_ vm + 1) = Some operand ->
  byte_at chunk (ip_ vm + 2) = Some get ->
  to_Op_code get = Some Op_code.get_global ->
  byte_at chunk (ip_ vm + 3) = Some operand ->
  constants chunk !! Z.to_nat (index_of operand) = Some (Str name) ->
  exists vm1 vm2 : VM,
    iteration chunk vm = Ok break_ vm1 /\
    iteration chunk vm1 = Ok break_ vm2 /\
    ip_ vm2 = ip_ vm + 4 /\
    stack_ vm2 = stack_ vm /\
    globals_ vm2 !! name = Some top /\
    forall other : string, other <> name ->
                           globals_ vm2 !! other = globals_ vm !! other.
Proof.
  intros Hstack Hdefine Hdefine_op Hoperand Hget Hget_op Hoperand' Hconstant.
  set (vm1 := {| ip_ := ip_ vm + 2; stack_ := s;
                 globals_ := <[name := top]> (globals_ vm);
                 cout := cout vm +:+ trace_text chunk vm |}).
  assert (H1 : iteration chunk vm = Ok break_ vm1).
  { rewrite (iteration_execute _ _ _ _ Hdefine Hdefine_op).
    run_code. rewrite Hoperand. run_code. rewrite Hconstant. run_code.
    rewrite Hstack. run_code. unfold vm1. do 2 f_equal. lia. }
  exists vm1. eexists. split; [exact H1|]. split.
  - apply (get_global_pushes_binding chunk vm1 operand name top).
    + exists get. split; [exact Hget | exact Hget_op].
    + cbn [ip_ vm1].
      replace (ip_ vm + 2 + 1) with (ip_ vm + 3) by lia. exact Hoperand'.
    + exact Hconstant.
    + apply lookup_insert_eq.
  - cbn [ip_ stack_ globals_ vm1]. split; [lia|]. split; [now rewrite Hstack|].
    split; [apply lookup_insert_eq|].
    intros other Hother. now apply lookup_insert_ne.
Qed.

Lemma keeps_bound_refl (m : gmap string Value) : keeps_bound m m.
Proof. now intros name. Qed.

Lemma keeps_bound_trans (m1 m2 m3 : gmap string Value) :
  keeps_bound m1 m2 -> keeps_bound m2 m3 -> keeps_bound m1 m3.
Proof. intros H12 H23 name H. apply H23, H12, H. Qed.

Lemma keeps_bound_insert (m : gmap string Value) (name : string) (v : Value) :
  keeps_bound m (<[name := v]> m).
Proof.
  intros other H. destruct (decide (name = other)) as [->|Hne].
  - rewrite lookup_insert_eq. now eexists.
  - now rewrite lookup_insert_ne.
Qed.

(** Only [SET_GLOBAL] and [DEFINE_GLOBAL] change the globals, and only
    when they end normally: every other instruction, and every
    instruction that throws, leaves the globals as they were. *)
Theorem globals_change_only_by_assignment
        (chunk : Chunk) (vm : VM) (opcode : byte) :
  byte_at chunk (ip_ vm) = Some opcode ->
  (forall (e : Exception) (vm' : VM),
     iteration chunk vm = Throw e vm' -> globals_ vm' = globals_ vm) /\
  (forall (flow : Flow) (vm' : VM),
     iteration chunk vm = Ok flow vm' ->
     to_Op_code opcode <> Some Op_code.set_global ->
     to_Op_code opcode <> Some Op_code.define_global ->
     globals_ vm' = globals_ vm) /\
  (forall (flow : Flow) (vm' : VM),
     iteration chunk vm = Ok flow vm' ->
     keeps_bound (globals_ vm) (globals_ vm')).
Proof.
  intros Hbyte. destruct (to_Op_code opcode) as [instruction|] eqn:Hop.
  - rewrite (iteration_execute _ _ _ _ Hbyte Hop). split; [|split].
    + intros e vm' H.
      destruct instruction; exec_in H; try discriminate H;
        injection H as <- <-; reflexivity.
    + intros flow vm' H Hset Hdefine.
      destruct instruction; try (now elim Hset); try (now elim Hdefine);
        exec_in H; try discriminate H; injection H as <- <-; reflexivity.
    + intros flow vm' H.
      destruct instruction; exec_in H; try discriminate H;
        injection H as <- <-; cbn [globals_];
        first [apply keeps_bound_refl | apply keeps_bound_insert].
  - rewrite (iteration_no_case _ _ _ Hbyte Hop). split; [|split].
    + discriminate.
    + now intros flow vm' [= <- <-].
    + intros flow vm' [= <- <-]. apply keeps_bound_refl.
Qed.

(** ** Invariants of a whole run *)

(** However long [run] goes on and however it ends, no global is ever
    unbound (there is no instruction that removes a binding), and nothing
    that was written to the output is ever taken back. *)
Theorem run_keeps_bindings_and_output
        (fuel : nat) (chunk : Chunk) (vm vm' : VM) :
  final_state (run fuel chunk vm) = Some vm' ->
  keeps_bound (globals_ vm) (globals_ vm') /\
  exists written : string, cout vm' = cout vm +:+ written.
Proof.
  revert vm. induction fuel as [|fuel IH]; intros vm.
  - intros [= <-]. split; [apply keeps_bound_refl|].
    exists "". now rewrite append_empty_r.
  - cbn [run].
    pose proof (iteration_traces chunk vm) as Htrace.
    destruct (iteration chunk vm) as [flow vm1|e vm1|] eqn:Hstep;
      [| |discriminate].
    + assert (Hbound : keeps_bound (globals_ vm) (globals_ vm1)).
      { destruct (byte_at chunk (ip_ vm)) as [opcode|] eqn:Hbyte.
        - exact (proj2 (proj2 (globals_change_only_by_assignment
                                 chunk vm opcode Hbyte)) flow vm1 Hstep).
        - unfold iteration, bind in Hstep. rewrite trace_writes in Hstep.
          unfold read_byte in Hstep. cbn [ip_] in Hstep.
          rewrite Hbyte in Hstep. discriminate Hstep. }
      destruct Htrace as (rest & Hrest).
      destruct flow; cbn [final_state].
      * intros H. destruct (IH vm1 H) as (Hb & written & Hw). split.
        -- exact (keeps_bound_trans _ _ _ Hbound Hb).
        -- exists ((trace_text chunk vm +:+ rest) +:+ written).
           now rewrite Hw, Hrest, !append_assoc.
      * intros [= <-]. split; [exact Hbound|]. rewrite Hrest. now eexists.
    + intros [= <-]. destruct Htrace as (rest & Hrest). split.
      * destruct (byte_at chunk (ip_ vm)) as [opcode|] eqn:Hbyte.
        -- rewrite (proj1 (globals_change_only_by_assignment
                            chunk vm opcode Hbyte) e vm1 Hstep).
           apply keeps_bound_refl.
        -- unfold iteration, bind in Hstep. rewrite trace_writes in Hstep.
           unfold read_byte in Hstep. cbn [ip_] in Hstep.
           rewrite Hbyte in Hstep. discriminate Hstep.
      * rewrite Hrest. now eexists.
Qed.

(** [run] returns only by a [RETURN] instruction. *)
Lemma iteration_returns_at_return (chunk : Chunk) (vm vm' : VM) :
  iteration chunk vm = Ok return_ vm' ->
  at_opcode chunk vm Op_code.return_ /\ vm' = fetched chunk vm.
Proof.
  intros H. destruct (byte_at chunk (ip_ vm)) as [opcode|] eqn:Hbyte.
  - destruct (to_Op_code opcode) as [instruction|] eqn:Hop.
    + rewrite (iteration_execute _ _ _ _ Hbyte Hop) in H.
      destruct instruction; exec_in H; try discriminate H.
      injection H as <-. split; [|reflexivity].
      exists opcode. now split.
    + rewrite (iteration_no_case _ _ _ Hbyte Hop) in H. discriminate H.
  - unfold iteration, bind in H. rewrite trace_writes in H.
    unfold read_byte in H. cbn [ip_] in H. rewrite Hbyte in H. discriminate H.
Qed.

(** A run that returns has just run a [RETURN]: the byte before the
    instruction pointer it leaves is the opcode [RETURN]. Running into
    the end of the code is no return. *)
Theorem run_returns_only_at_return
        (fuel : nat) (chunk : Chunk) (vm vm' : VM) :
  run fuel chunk vm = Returned vm' ->
  exists opcode : byte,
    byte_at chunk (ip_ vm' - 1) = Some opcode /\
    to_Op_code opcode = Some Op_code.return_.
Proof.
  revert vm. induction fuel as [|fuel IH]; intros vm; [discriminate|].
  cbn [run].
  destruct (iteration chunk vm) as [[|] vm1|e vm1|] eqn:Hstep;
    try discriminate.
  - apply IH.
  - intros [= <-].
    destruct (iteration_returns_at_return _ _ _ Hstep)
      as ((opcode & Hbyte & Hop) & ->).
    exists opcode. cbn [ip_ fetched].
    replace (ip_ vm + 1 - 1) with (ip_ vm) by lia. now split.
Qed.

(** A [LOOP] whose operand is 0 jumps to itself: [run] then never ends,
    and stack and globals stay as they are while the trace grows. *)
Theorem loop_with_operand_zero_never_ends
        (chunk : Chunk) (vm : VM) (first second : byte) (fuel : nat) :
  at_opcode chunk vm Op_code.loop ->
  byte_at chunk (ip_ vm + 1) = Some first ->
  byte_at chunk (ip_ vm + 2) = Some second ->
  uint16_of_bytes host first second = 0 ->
  exists vm' : VM,
    run fuel chunk vm = Still_running vm' /\
    ip_ vm' = ip_ vm /\ stack_ vm' = stack_ vm /\ globals_ vm' = globals_ vm.
Proof.
  intros (opcode & Hbyte & Hop) H1 H2 Hzero.
  revert vm Hbyte H1 H2. induction fuel as [|fuel IH]; intros vm Hbyte H1 H2.
  - exists vm. now repeat split.
  - cbn [run]. rewrite (loop_target _ _ _ _ _ Hbyte Hop H1 H2), Hzero.
    set (vm1 := {| ip_ := ip_ vm - 0; stack_ := stack_ vm;
                   globals_ := globals_ vm;
                   cout := cout vm +:+ trace_text chunk vm |}).
    assert (Hip : ip_ vm1 = ip_ vm) by (cbn; lia).
    destruct (IH vm1) as (vm' & Hrun & Hip' & Hstack & Hglobals);
      [now rewrite Hip..|].
    exists vm'. split; [exact Hrun|]. split; [lia|]. now split.
Qed.

(** ** Numbers: comparison and negation *)

Lemma SFcompare_None (x y : spec_float) :
  SFcompare x y = None <-> x = S754_nan \/ y = S754_nan.
Proof.
  destruct x as [sx|sx| |sx mx ex], y as [sy|sy| |sy my ey]; cbn;
    split; intros H; try discriminate H; auto;
    destruct H as [H|H]; discriminate H.
Qed.

(** Of the three booleans that [EQUAL], [LESS] and [GREATER] push for
    two numbers, exactly one is true, unless one of the numbers is a NaN:
    then all three are false. *)
Theorem number_comparisons_exclude_each_other
        (chunk : Chunk) (vm : VM) (s : list Value) (l r : float) :
  stack_ vm = s ++ [Num l; Num r] ->
  let pushed b :=
    Ok break_ {| ip_ := ip_ vm + 1; stack_ := s ++ [Bool b];
                 globals_ := globals_ vm;
                 cout := cout vm +:+ trace_text chunk vm |} in
  exists equal less greater : bool,
    (at_opcode chunk vm Op_code.equal -> iteration chunk vm = pushed equal) /\
    (at_opcode chunk vm Op_code.less -> iteration chunk vm = pushed less) /\
    (at_opcode chunk vm Op_code.greater -> iteration chunk vm = pushed greater) /\
    (equal = (l =? r)%float /\ less = (l <? r)%float /\ greater = (r <? l)%float) /\
    if is_NaN (Num l) || is_NaN (Num r)
    then equal = false /\ less = false /\ greater = false
    else (equal = true /\ less = false /\ greater = false)
         \/ (equal = false /\ less = true /\ greater = false)
         \/ (equal = false /\ less = false /\ greater = true).
Proof.
  intros Hstack pushed. unfold pushed.
  exists (l =? r)%float, (l <? r)%float, (r <? l)%float.
  split; [|split; [|split; [|split]]].
  - intros (opcode & Hbyte & Hop).
    rewrite (iteration_execute _ _ _ _ Hbyte Hop).
    run_code. rewrite Hstack. run_code. reflexivity.
  - intros (opcode & Hbyte & Hop).
    rewrite (iteration_execute _ _ _ _ Hbyte Hop).
    run_code. rewrite Hstack. run_code. reflexivity.
  - intros (opcode & Hbyte & Hop).
    rewrite (iteration_execute _ _ _ _ Hbyte Hop).
    run_code. rewrite Hstack. run_code. reflexivity.
  - now repeat split.
  - rewrite FloatAxioms.eqb_spec, !FloatAxioms.ltb_spec.
    unfold SFeqb, SFltb, is_NaN.
    rewrite (SFcompare_antisym (Prim2SF l) (Prim2SF r)).
    pose proof (SFcompare_None (Prim2SF l) (Prim2SF r)) as Hnone.
    destruct (SFcompare (Prim2SF l) (Prim2SF r)) as [[]|] eqn:Hcompare;
      cbn [option_map CompOpp];
      destruct (Prim2SF l) eqn:Hl, (Prim2SF r) eqn:Hr; cbn [orb];
      try discriminate Hcompare; auto 6;
      destruct (proj1 Hnone eq_refl) as [H|H]; discriminate H.
Qed.

Lemma opp_involutive (d : float) : (- - d)%float = d.
Proof.
  rewrite <- (FloatAxioms.SF2Prim_Prim2SF (- - d)), !FloatAxioms.opp_spec.
  rewrite <- (FloatAxioms.SF2Prim_Prim2SF d) at 2. f_equal.
  destruct (Prim2SF d) as [sx|sx| |sx mx ex]; cbn;
    rewrite ?Bool.negb_involutive; reflexivity.
Qed.

(** Two [NEGATE]s in a row give a number that is not a NaN back as it
    was, signed zeros and infinities included, so that the stack is as
    it was; two [NOT]s in a row replace a value by its truthiness as a
    boolean. *)
Theorem negate_and_not_twice
        (chunk : Chunk) (vm : VM) (s : list Value) (top : Value)
        (first second : byte) (instruction : Op_code.t) :
  stack_ vm = s ++ [top] ->
  byte_at chunk (ip_ vm) = Some first ->
  byte_at chunk (ip_ vm + 1) = Some second ->
  to_Op_code first = Some instruction ->
  to_Op_code second = Some instruction ->
  (instruction = Op_code.negate /\ which top = which_double
   /\ is_NaN top = false)
  \/ instruction = Op_code.not_ ->
  exists vm1 vm2 : VM,
    iteration chunk vm = Ok break_ vm1 /\
    iteration chunk vm1 = Ok break_ vm2 /\
    ip_ vm2 = ip_ vm + 2 /\
    globals_ vm2 = globals_ vm /\
    stack_ vm2
    = s ++ [match instruction with
            | Op_code.negate => top
            | _ => Bool (Is_truthy_visitor top)
            end].
Proof.
  intros Hstack Hfirst Hsecond Hop1 Hop2 Hwhich.
  destruct Hwhich as [(-> & Hnumber & _)| ->].
  - destruct top as [|d| |]; try discriminate Hnumber.
    set (vm1 := {| ip_ := ip_ vm + 1; stack_ := s ++ [Num (- d)%float];
                   globals_ := globals_ vm;
                   cout := cout vm +:+ trace_text chunk vm |}).
    exists vm1. eexists. split; [|split].
    + rewrite (iteration_execute _ _ _ _ Hfirst Hop1).
      run_code. rewrite Hstack. run_code. reflexivity.
    + rewrite (iteration_execute chunk vm1 second Op_code.negate Hsecond Hop2).
      unfold vm1. run_code. reflexivity.
    + cbn [ip_ stack_ globals_]. rewrite opp_involutive.
      split; [lia|]. now split.
  - set (vm1 := {| ip_ := ip_ vm + 1;
                   stack_ := s ++ [Bool (negb (Is_truthy_visitor top))];
                   globals_ := globals_ vm;
                   cout := cout vm +:+ trace_text chunk vm |}).
    exists vm1. eexists. split; [|split].
    + rewrite (iteration_execute _ _ _ _ Hfirst Hop1).
      run_code. rewrite Hstack. run_code. reflexivity.
    + rewrite (iteration_execute chunk vm1 second Op_code.not_ Hsecond Hop2).
      unfold vm1. run_code. reflexivity.
    + cbn [ip_ stack_ globals_ Is_truthy_visitor].
      rewrite Bool.negb_involutive. split; [lia|]. now split.
Qed.

(** ** [VM::interpret] *)

(** [interpret] starts the chunk of the source at its first byte and
    resets nothing else: the stack that an earlier call left, after a
    runtime error for instance, is what the first line of the trace shows
    and what the first instruction works on; the globals bound before
    stay bound, and the output is added to. *)
Theorem interpret_resets_only_the_instruction_pointer
        (fuel : nat) (source : string) (vm vm' : VM) :
  final_state (interpret (S fuel) source vm) = Some vm' ->
  keeps_bound (globals_ vm) (globals_ vm') /\
  exists written : string,
    cout vm'
    = cout vm +:+ "          " +:+ stack_text (stack_ vm) +:+ newline
      +:+ disassemble_instruction (compile source) 0 +:+ written.
Proof.
  unfold interpret.
  set (vm0 := {| ip_ := 0; stack_ := stack_ vm; globals_ := globals_ vm;
                 cout := cout vm |}).
  intros H. split.
  - exact (proj1 (run_keeps_bindings_and_output _ _ vm0 _ H)).
  - cbn [run] in H.
    pose proof (iteration_traces (compile source) vm0) as Htrace.
    destruct (iteration (compile source) vm0) as [flow vm1|e vm1|] eqn:Hstep;
      [| |discriminate H]; destruct Htrace as (rest & Hrest);
      unfold trace_text in Hrest; cbn [ip_ stack_ cout vm0] in Hrest.
    + destruct flow; cbn [final_state] in H.
      * destruct (run_keeps_bindings_and_output _ _ _ _ H)
          as (_ & written & Hwritten).
        exists (rest +:+ written).
        now rewrite Hwritten, Hrest, !append_assoc.
      * injection H as <-. exists rest. now rewrite Hrest, !append_assoc.
    + injection H as <-. exists rest. now rewrite Hrest, !append_assoc.
Qed.

End Run.

(** * The theorems at concrete inputs

    The machine of the examples is little-endian, numbers the op codes in
    the order of the specification's list and has a disassembler that
    writes nothing. *)

Lemma jump_and_loop_targets_witness :
  iteration little_endian Op_code_of_byte silent_disassembler
    (chunk_of [x14; x02; x00; x01; x01; x16; x02; x00; x17] []) fresh_VM
  = Ok break_ {| ip_ := 5; stack_ := []; globals_ := ∅;
                 cout := "          " +:+ newline |}
  /\
  iteration little_endian Op_code_of_byte silent_disassembler
    (chunk_of [x14; x02; x00; x01; x01; x16; x02; x00; x17] [])
    {| ip_ := 5; stack_ := []; globals_ := ∅; cout := "" |}
  = Ok break_ {| ip_ := 3; stack_ := []; globals_ := ∅;
                 cout := "          " +:+ newline |}.
Proof.
  split.
  - apply (proj1 (proj2 (jump_and_loop_targets little_endian Op_code_of_byte
             silent_disassembler
             (chunk_of [x14; x02; x00; x01; x01; x16; x02; x00; x17] [])
             fresh_VM x02 x00 eq_refl eq_refl))).
    exists x14. split; reflexivity.
  - apply (proj2 (proj2 (jump_and_loop_targets little_endian Op_code_of_byte
             silent_disassembler
             (chunk_of [x14; x02; x00; x01; x01; x16; x02; x00; x17] [])
             {| ip_ := 5; stack_ := []; globals_ := ∅; cout := "" |}
             x02 x00 eq_refl eq_refl))).
    exists x16. split; reflexivity.
Defined.

(** C1 fails for [LOOP]: at offset 5 with the operand 2, the byte after
    the operand is at offset 8, and the claim has the VM continue at
    offset 6; it continues at offset 3. *)
Lemma loop_target_counterexample :
  exists vm' : VM,
    iteration little_endian Op_code_of_byte silent_disassembler
      (chunk_of [x14; x02; x00; x01; x01; x16; x02; x00; x17] [])
      {| ip_ := 5; stack_ := []; globals_ := ∅; cout := "" |}
    = Ok break_ vm'
    /\ ip_ vm' = 3
    /\ ip_ vm' <> (5 + 3) - 2.
Proof.
  eexists. split; [vm_compute; reflexivity|]. split; [reflexivity|].
  cbn. discriminate.
Qed.

Lemma number_operands_throw_bad_get_witness :
  iteration little_endian Op_code_of_byte silent_disassembler
    (chunk_of [x12; x17] []) (VM_with_stack [Bool true])
  = Throw bad_get {| ip_ := 1; stack_ := [Bool true]; globals_ := ∅;
                     cout := "          [ true ]" +:+ newline |}
  /\
  iteration little_endian Op_code_of_byte silent_disassembler
    (chunk_of [x0b; x17] []) (VM_with_stack [Str "a"; Num 1])
  = Throw bad_get {| ip_ := 1; stack_ := [Str "a"]; globals_ := ∅;
                     cout := "          [ a ][ 1 ]" +:+ newline |}.
Proof.
  split.
  - apply (proj1 (proj2 (number_operands_throw_bad_get little_endian
             Op_code_of_byte silent_disassembler
             (chunk_of [x12; x17] []) (VM_with_stack [Bool true])))
             [] (Bool true) eq_refl).
    + discriminate.
    + left. exists x12. split; reflexivity.
  - apply (proj2 (proj2 (number_operands_throw_bad_get little_endian
             Op_code_of_byte silent_disassembler
             (chunk_of [x0b; x17] []) (VM_with_stack [Str "a"; Num 1])))
             [] (Str "a") 1%float eq_refl).
    + discriminate.
    + left. exists x0b. split; reflexivity.
Defined.

Lemma add_dispatches_on_operand_types_witness :
  iteration little_endian Op_code_of_byte silent_disassembler
    (chunk_of [x0d; x17] []) (VM_with_stack [Num 1; Num 2])
  = Ok break_ {| ip_ := 1; stack_ := [Num 3]; globals_ := ∅;
                 cout := "          [ 1 ][ 2 ]" +:+ newline |}
  /\
  iteration little_endian Op_code_of_byte silent_disassembler
    (chunk_of [x0d; x17] []) (VM_with_stack [Str "hi"; Str " there"])
  = Ok break_ {| ip_ := 1; stack_ := [Str "hi there"]; globals_ := ∅;
                 cout := "          [ hi ][  there ]" +:+ newline |}
  /\
  iteration little_endian Op_code_of_byte silent_disassembler
    (chunk_of [x0d; x17] []) (VM_with_stack [Str "a"; Num 1])
  = Throw (VM_error "Operands must be two numbers or two strings.")
          {| ip_ := 1; stack_ := []; globals_ := ∅;
             cout := "          [ a ][ 1 ]" +:+ newline |}.
Proof.
  assert (Hat : forall vm, ip_ vm = 0 ->
                  at_opcode Op_code_of_byte (chunk_of [x0d; x17] []) vm Op_code.add).
  { intros vm E. exists x0d. rewrite E. split; reflexivity. }
  split; [|split].
  - apply (proj1 (add_dispatches_on_operand_types little_endian Op_code_of_byte
             silent_disassembler (chunk_of [x0d; x17] [])
             (VM_with_stack [Num 1; Num 2]) [] (Num 1) (Num 2)
             (Hat (VM_with_stack [Num 1; Num 2]) eq_refl) eq_refl) 1%float 2%float eq_refl eq_refl).
  - apply (proj1 (proj2 (add_dispatches_on_operand_types little_endian
             Op_code_of_byte silent_disassembler (chunk_of [x0d; x17] [])
             (VM_with_stack [Str "hi"; Str " there"]) [] (Str "hi") (Str " there")
             (Hat (VM_with_stack [Str "hi"; Str " there"]) eq_refl) eq_refl)) "hi" " there" eq_refl eq_refl).
  - apply (proj2 (proj2 (add_dispatches_on_operand_types little_endian
             Op_code_of_byte silent_disassembler (chunk_of [x0d; x17] [])
             (VM_with_stack [Str "a"; Num 1]) [] (Str "a") (Num 1)
             (Hat (VM_with_stack [Str "a"; Num 1]) eq_refl) eq_refl))).
    + intros [H _]. discriminate H.
    + intros [_ H]. discriminate H.
Defined.

Lemma equal_never_throws_witness :
  iteration little_endian Op_code_of_byte silent_disassembler
    (chunk_of [x0a; x17] []) (VM_with_stack [Nil; Nil])
  = Ok break_ {| ip_ := 1; stack_ := [Bool true]; globals_ := ∅;
                 cout := "          [ nil ][ nil ]" +:+ newline |}
  /\
  iteration little_endian Op_code_of_byte silent_disassembler
    (chunk_of [x0a; x17] []) (VM_with_stack [Num 1; Str "1"])
  = Ok break_ {| ip_ := 1; stack_ := [Bool false]; globals_ := ∅;
                 cout := "          [ 1 ][ 1 ]" +:+ newline |}.
Proof.
  split.
  - apply (equal_never_throws little_endian Op_code_of_byte silent_disassembler
             (chunk_of [x0a; x17] []) (VM_with_stack [Nil; Nil]) [] Nil Nil).
    + exists x0a. split; reflexivity.
    + reflexivity.
  - apply (equal_never_throws little_endian Op_code_of_byte silent_disassembler
             (chunk_of [x0a; x17] []) (VM_with_stack [Num 1; Str "1"])
             [] (Num 1) (Str "1")).
    + exists x0a. split; reflexivity.
    + reflexivity.
Defined.

Lemma truthiness_of_not_and_jump_if_false_witness :
  iteration little_endian Op_code_of_byte silent_disassembler
    (chunk_of [x11; x17] []) (VM_with_stack [Num 0])
  = Ok break_ {| ip_ := 1; stack_ := [Bool false]; globals_ := ∅;
                 cout := "          [ 0 ]" +:+ newline |}
  /\
  iteration little_endian Op_code_of_byte silent_disassembler
    (chunk_of [x15; x01; x00; x17; x17] []) (VM_with_stack [Nil])
  = Ok break_ {| ip_ := 4; stack_ := [Nil]; globals_ := ∅;
                 cout := "          [ nil ]" +:+ newline |}
  /\
  iteration little_endian Op_code_of_byte silent_disassembler
    (chunk_of [x15; x01; x00; x17; x17] []) (VM_with_stack [Str ""])
  = Ok break_ {| ip_ := 3; stack_ := [Str ""]; globals_ := ∅;
                 cout := "          [  ]" +:+ newline |}.
Proof.
  split; [|split].
  - apply (truthiness_of_not_and_jump_if_false little_endian Op_code_of_byte
             silent_disassembler (chunk_of [x11; x17] [])
             (VM_with_stack [Num 0]) [] (Num 0) eq_refl).
    exists x11. split; reflexivity.
  - apply (proj2 (proj2 (proj2 (proj2
             (truthiness_of_not_and_jump_if_false little_endian Op_code_of_byte
                silent_disassembler (chunk_of [x15; x01; x00; x17; x17] [])
                (VM_with_stack [Nil]) [] Nil eq_refl)))) x01 x00).
    + exists x15. split; reflexivity.
    + reflexivity.
    + reflexivity.
  - apply (proj2 (proj2 (proj2 (proj2
             (truthiness_of_not_and_jump_if_false little_endian Op_code_of_byte
                silent_disassembler (chunk_of [x15; x01; x00; x17; x17] [])
                (VM_with_stack [Str ""]) [] (Str "") eq_refl)))) x01 x00).
    + exists x15. split; reflexivity.
    + reflexivity.
    + reflexivity.
Defined.

Lemma undefined_global_throws_witness :
  run little_endian Op_code_of_byte silent_disassembler 5
    (chunk_of [x01; x08; x00; x04; x17] [Str "x"]) fresh_VM
  = Thrown (VM_error "Undefined variable 'x'")
           {| ip_ := 3; stack_ := [Nil]; globals_ := ∅;
              cout := "          " +:+ newline
                      +:+ "          [ nil ]" +:+ newline |}.
Proof.
  change (run little_endian Op_code_of_byte silent_disassembler 4
            (chunk_of [x01; x08; x00; x04; x17] [Str "x"])
            {| ip_ := 1; stack_ := [Nil]; globals_ := ∅;
               cout := "          " +:+ newline |}
          = Thrown (VM_error "Undefined variable 'x'")
              {| ip_ := 3; stack_ := [Nil]; globals_ := ∅;
                 cout := "          " +:+ newline
                         +:+ "          [ nil ]" +:+ newline |}).
  apply (undefined_global_throws little_endian Op_code_of_byte
           silent_disassembler (chunk_of [x01; x08; x00; x04; x17] [Str "x"])
           {| ip_ := 1; stack_ := [Nil]; globals_ := ∅;
              cout := "          " +:+ newline |} x00 "x").
  - right. exists x08. split; reflexivity.
  - reflexivity.
  - reflexivity.
  - reflexivity.
Defined.

Lemma trace_is_unconditional_witness :
  iteration little_endian Op_code_of_byte silent_disassembler
    (chunk_of [x17] []) fresh_VM
  = Ok return_ {| ip_ := 1; stack_ := []; globals_ := ∅;
                  cout := "          " +:+ newline |}
  /\
  exists rest : string,
    "          " +:+ newline
    = cout fresh_VM
      +:+ trace_text silent_disassembler (chunk_of [x17] []) fresh_VM +:+ rest.
Proof.
  split; [reflexivity|].
  apply (proj1 (proj2 (trace_is_unconditional little_endian Op_code_of_byte
           silent_disassembler (chunk_of [x17] []) fresh_VM)) return_
           {| ip_ := 1; stack_ := []; globals_ := ∅;
              cout := "          " +:+ newline |}).
  reflexivity.
Defined.

(** C8 fails: the VM has no tracing switch. A VM that has run nothing,
    given the chunk that is the single instruction [RETURN], writes the
    (empty) stack line and the disassembly, whatever the disassembler
    is. *)
Lemma trace_counterexample :
  exists chunk : Chunk,
    forall disassemble_instruction : Chunk -> Z -> string,
    exists vm' : VM,
      run little_endian Op_code_of_byte disassemble_instruction 1 chunk fresh_VM
      = Returned vm'
      /\ cout vm' = "          " +:+ newline +:+ disassemble_instruction chunk 0
      /\ cout vm' <> "".
Proof.
  exists (chunk_of [x17] []). intros dis. eexists.
  split; [reflexivity|]. split; [reflexivity|]. discriminate.
Qed.

Lemma print_writes_value_and_pops_witness :
  (exists vm' : VM,
     iteration little_endian Op_code_of_byte silent_disassembler
       (chunk_of [x13; x17] []) (VM_with_stack [Num 1; Str "hi there"])
     = Ok break_ vm' /\
     ip_ vm' = 1 /\
     stack_ vm' = [Num 1] /\
     globals_ vm' = ∅ /\
     cout vm' = "          [ 1 ][ hi there ]" +:+ newline
                +:+ "hi there" +:+ newline) /\
  Ostream_visitor (Num (-42)) = "-42" /\
  (exists (x q : Q) (X N : Z),
     double_value 1234567 = Some x /\
     decimal_value "1.23457e+06" = Some q /\
     (power_of 10 X <= Qabs x)%Q /\ (Qabs x < power_of 10 (X + 1))%Q /\
     (Qabs q == inject_Z N * power_of 10 (X - 5))%Q /\
     (Qabs (x - q) <= (1 # 2) * power_of 10 (X - 5))%Q /\
     (0 < x * q)%Q).
Proof.
  destruct (print_writes_value_and_pops little_endian Op_code_of_byte
              silent_disassembler (chunk_of [x13; x17] [])
              (VM_with_stack [Num 1; Str "hi there"]) [Num 1]
              (Str "hi there"))
    as [(vm' & Hrun & Hip & Hstack & Hglobals & _ & Hcout)
        (_ & _ & _ & _ & _ & Hinteger & Hrounds & _)].
  - exists x13. split; reflexivity.
  - reflexivity.
  - split; [|split].
    + exists vm'. split; [exact Hrun|]. split; [exact Hip|].
      split; [exact Hstack|]. split; [exact Hglobals|].
      apply Hcout. repeat constructor.
    + apply (Hinteger (-42)%float _ (-42) eq_refl); [reflexivity|].
      split; reflexivity.
    + destruct (Hrounds 1234567%float _ eq_refl) as (q & X & N & H).
      * discriminate.
      * eexists. exists q, X, N. split; [reflexivity|].
        destruct H as (Hq & Hlow & Hhigh & Hmagnitude & Hnear & _ & Hsign & _).
        repeat split; assumption.
Defined.

(** C9 fails for numbers: the integer 1234567 is printed as
    [1.23457e+06], a text that denotes 1234570, which is itself a [double]
    and another one: what is printed does not read back as the value, and
    is not the decimal [1234567]. *)
Lemma print_number_counterexample :
  exists vm' : VM,
    iteration little_endian Op_code_of_byte silent_disassembler
      (chunk_of [x13; x17] []) (VM_with_stack [Num 1234567])
    = Ok break_ vm'
    /\ cout vm' = "          [ 1.23457e+06 ]" +:+ newline
                  +:+ "1.23457e+06" +:+ newline
    /\ ~ reads_back_as "1.23457e+06" 1234567
    /\ "1.23457e+06" <> "1234567".
Proof.
  eexists. split; [vm_compute; reflexivity|]. split; [reflexivity|].
  split; [|discriminate].
  intros (q & x & Hq & Hx & Hnear).
  vm_compute in Hq. injection Hq as <-.
  vm_compute in Hx. injection Hx as <-.
  destruct (double_value 1234570) as [x'|] eqn:Hother;
    [|vm_compute in Hother; discriminate].
  specialize (Hnear _ _ Hother).
  vm_compute in Hother. injection Hother as <-.
  vm_compute in Hnear. now apply Hnear.
Qed.

Lemma assignment_keeps_value_on_top_witness :
  iteration little_endian Op_code_of_byte silent_disassembler
    (chunk_of [x06; x00; x17] []) (VM_with_stack [Num 1; Num 2])
  = Ok break_ {| ip_ := 2; stack_ := [Num 2; Num 2]; globals_ := ∅;
                 cout := "          [ 1 ][ 2 ]" +:+ newline |}
  /\
  iteration little_endian Op_code_of_byte silent_disassembler
    (chunk_of [x08; x00; x17] [Str "a"])
    {| ip_ := 0; stack_ := [Num 2]; globals_ := {[ "a" := Num 1 ]}; cout := "" |}
  = Ok break_ {| ip_ := 2; stack_ := [Num 2];
                 globals_ := <[ "a" := Num 2 ]> {[ "a" := Num 1 ]};
                 cout := "          [ 2 ]" +:+ newline |}
  /\
  iteration little_endian Op_code_of_byte silent_disassembler
    (chunk_of [x09; x00; x17] [Str "a"]) (VM_with_stack [Num 2])
  = Ok break_ {| ip_ := 2; stack_ := [];
                 globals_ := <[ "a" := Num 2 ]> ∅;
                 cout := "          [ 2 ]" +:+ newline |}.
Proof.
  split; [|split].
  - apply (proj1 (assignment_keeps_value_on_top little_endian Op_code_of_byte
             silent_disassembler (chunk_of [x06; x00; x17] [])
             (VM_with_stack [Num 1; Num 2]) [Num 1] (Num 2) x00
             eq_refl eq_refl)).
    + exists x06. split; reflexivity.
    + cbn. lia.
  - pose proof (proj1 (proj2 (assignment_keeps_value_on_top little_endian
             Op_code_of_byte silent_disassembler
             (chunk_of [x08; x00; x17] [Str "a"])
             {| ip_ := 0; stack_ := [Num 2]; globals_ := {[ "a" := Num 1 ]};
                cout := "" |} [] (Num 2) x00 eq_refl eq_refl)) "a") as H.
    cbn [ip_ stack_ globals_ cout] in H. apply H.
    + exists x08. split; reflexivity.
    + reflexivity.
    + exists (Num 1). reflexivity.
  - apply (proj2 (proj2 (assignment_keeps_value_on_top little_endian
             Op_code_of_byte silent_disassembler
             (chunk_of [x09; x00; x17] [Str "a"])
             (VM_with_stack [Num 2]) [] (Num 2) x00 eq_refl eq_refl)) "a").
    + exists x09. split; reflexivity.
    + reflexivity.
Defined.

(** C10 fails for [SET_LOCAL]: locals live on the stack, and assigning
    to slot 0 of the stack [1, 2] leaves the stack [2, 2]. *)
Lemma set_local_counterexample :
  exists vm' : VM,
    iteration little_endian Op_code_of_byte silent_disassembler
      (chunk_of [x06; x00; x17] []) (VM_with_stack [Num 1; Num 2])
    = Ok break_ vm'
    /\ stack_ vm' = [Num 2; Num 2]
    /\ stack_ vm' <> stack_ (VM_with_stack [Num 1; Num 2]).
Proof.
  eexists. split; [vm_compute; reflexivity|]. split; [reflexivity|].
  cbn. intros H.
  apply (f_equal (fun stack => match stack with
                               | Num d :: _ => (d =? 1)%float
                               | _ => false
                               end)) in H.
  vm_compute in H. discriminate.
Qed.

Lemma instruction_stack_effect_witness :
  Z.of_nat (length [Num 3]) = Z.of_nat (length [Num 1; Num 2]) + -1.
Proof.
  apply (instruction_stack_effect little_endian Op_code_of_byte
           silent_disassembler (chunk_of [x0d; x17] [])
           (VM_with_stack [Num 1; Num 2]) x0d break_
           {| ip_ := 1; stack_ := [Num 3]; globals_ := ∅;
              cout := "          [ 1 ][ 2 ]" +:+ newline |}).
  - reflexivity.
  - vm_compute. reflexivity.
Defined.

Lemma arithmetic_of_two_numbers_witness :
  iteration little_endian Op_code_of_byte silent_disassembler
    (chunk_of [x10; x17] []) (VM_with_stack [Num 1; Num 0])
  = Ok break_ {| ip_ := 1; stack_ := [Num infinity]; globals_ := ∅;
                 cout := "          [ 1 ][ 0 ]" +:+ newline |}.
Proof.
  apply (proj1 (proj2 (proj2 (arithmetic_of_two_numbers little_endian
           Op_code_of_byte silent_disassembler (chunk_of [x10; x17] [])
           (VM_with_stack [Num 1; Num 0]) [] 1%float 0%float eq_refl)))).
  exists x10. split; reflexivity.
Defined.

Lemma local_slots_are_stack_slots_witness :
  iteration little_endian Op_code_of_byte silent_disassembler
    (chunk_of [x05; x00; x17] []) (VM_with_stack [Num 1; Num 2])
  = Ok break_ {| ip_ := 2; stack_ := [Num 1; Num 2; Num 1]; globals_ := ∅;
                 cout := "          [ 1 ][ 2 ]" +:+ newline |}
  /\
  iteration little_endian Op_code_of_byte silent_disassembler
    (chunk_of [x06; x02; x17] []) (VM_with_stack [Num 1; Num 2])
  = Throw out_of_range {| ip_ := 2; stack_ := [Num 1; Num 2]; globals_ := ∅;
                          cout := "          [ 1 ][ 2 ]" +:+ newline |}.
Proof.
  split.
  - apply (proj1 (local_slots_are_stack_slots little_endian Op_code_of_byte
             silent_disassembler (chunk_of [x05; x00; x17] [])
             (VM_with_stack [Num 1; Num 2]) x00 eq_refl) (Num 1)).
    + exists x05. split; reflexivity.
    + reflexivity.
  - apply (proj2 (local_slots_are_stack_slots little_endian Op_code_of_byte
             silent_disassembler (chunk_of [x06; x02; x17] [])
             (VM_with_stack [Num 1; Num 2]) x02 eq_refl)).
    + right. split; [exists x06; split; reflexivity | discriminate].
    + cbn. lia.
Defined.

(** * The further theorems at concrete inputs *)

Lemma instruction_pointer_after_witness :
  ip_ {| ip_ := 2; stack_ := [Num 7]; globals_ := ∅;
         cout := "          " +:+ newline |}
  = ip_ fresh_VM + 1 + operand_bytes Op_code.constant.
Proof.
  apply (instruction_pointer_after little_endian Op_code_of_byte
           silent_disassembler (chunk_of [x00; x00; x17] [Num 7]) fresh_VM x00
           break_).
  - reflexivity.
  - vm_compute. reflexivity.
Defined.

Lemma stack_below_operands_is_kept_witness :
  exists results : list Value, [Num 5; Num 3] = [Num 5] ++ results.
Proof.
  pose proof (stack_below_operands_is_kept little_endian Op_code_of_byte
                silent_disassembler (chunk_of [x0d; x17] [])
                (VM_with_stack [Num 5; Num 1; Num 2]) Op_code.add
                [Num 5] [Num 1; Num 2]) as H.
  apply H.
  - exists x0d. split; reflexivity.
  - discriminate.
  - reflexivity.
  - reflexivity.
Defined.


Lemma underflow_is_undefined_witness :
  iteration little_endian Op_code_of_byte silent_disassembler
    (chunk_of [x04; x17] []) fresh_VM
  = Undefined.
Proof.
  apply (underflow_is_undefined little_endian Op_code_of_byte
           silent_disassembler (chunk_of [x04; x17] []) fresh_VM Op_code.pop).
  - exists x04. split; reflexivity.
  - reflexivity.
  - reflexivity.
  - cbn. lia.
Defined.

Lemma constant_is_bounds_checked_witness :
  iteration little_endian Op_code_of_byte silent_disassembler
    (chunk_of [x00; x01; x17] [Num 7]) fresh_VM
  = Throw out_of_range {| ip_ := 2; stack_ := []; globals_ := ∅;
                          cout := "          " +:+ newline |}.
Proof.
  apply (proj1 (constant_is_bounds_checked little_endian Op_code_of_byte
           silent_disassembler (chunk_of [x00; x01; x17] [Num 7]) fresh_VM x01)).
  - exists x00. split; reflexivity.
  - reflexivity.
  - cbn. lia.
Defined.

Lemma global_name_operand_errors_witness :
  iteration little_endian Op_code_of_byte silent_disassembler
    (chunk_of [x09; x00; x17] [Num 7]) (VM_with_stack [Nil])
  = Throw bad_get {| ip_ := 2; stack_ := [Nil]; globals_ := ∅;
                     cout := "          [ nil ]" +:+ newline |}.
Proof.
  apply (proj2 (global_name_operand_errors little_endian Op_code_of_byte
           silent_disassembler (chunk_of [x09; x00; x17] [Num 7])
           (VM_with_stack [Nil]) x00
           (or_intror (or_intror (ex_intro _ x09 (conj eq_refl eq_refl))))
           eq_refl) (Num 7)).
  - reflexivity.
  - discriminate.
Defined.

Lemma define_then_get_global_witness :
  exists vm1 vm2 : VM,
    iteration little_endian Op_code_of_byte silent_disassembler
      (chunk_of [x09; x00; x07; x00; x17] [Str "a"]) (VM_with_stack [Num 1])
    = Ok break_ vm1 /\
    iteration little_endian Op_code_of_byte silent_disassembler
      (chunk_of [x09; x00; x07; x00; x17] [Str "a"]) vm1
    = Ok break_ vm2 /\
    ip_ vm2 = 0 + 4 /\
    stack_ vm2 = [Num 1] /\
    globals_ vm2 !! "a" = Some (Num 1) /\
    forall other : string,
      other <> "a" -> globals_ vm2 !! other = (∅ : gmap string Value) !! other.
Proof.
  apply (define_then_get_global little_endian Op_code_of_byte
           silent_disassembler (chunk_of [x09; x00; x07; x00; x17] [Str "a"])
           (VM_with_stack [Num 1]) [] (Num 1) x09 x07 x00 "a");
    reflexivity.
Defined.

Lemma globals_change_only_by_assignment_witness :
  globals_ {| ip_ := 1; stack_ := []; globals_ := {[ "a" := Num 1 ]};
              cout := "          [ 1 ][ a ]" +:+ newline |}
  = globals_ {| ip_ := 0; stack_ := [Num 1; Str "a"];
                globals_ := {[ "a" := Num 1 ]}; cout := "" |}.
Proof.
  apply (proj1 (globals_change_only_by_assignment little_endian
           Op_code_of_byte silent_disassembler (chunk_of [x0d; x17] [])
           {| ip_ := 0; stack_ := [Num 1; Str "a"];
              globals_ := {[ "a" := Num 1 ]}; cout := "" |} x0d eq_refl)
           (VM_error "Operands must be two numbers or two strings.")
           {| ip_ := 1; stack_ := []; globals_ := {[ "a" := Num 1 ]};
              cout := "          [ 1 ][ a ]" +:+ newline |}).
  vm_compute. reflexivity.
Defined.

Lemma run_keeps_bindings_and_output_witness :
  keeps_bound ({[ "b" := Nil ]} : gmap string Value)
              (<[ "a" := Num 1 ]> {[ "b" := Nil ]})
  /\ exists written : string,
       "          [ 1 ]" +:+ newline +:+ "          " +:+ newline
       = "" +:+ written.
Proof.
  pose proof (run_keeps_bindings_and_output little_endian Op_code_of_byte
           silent_disassembler 5
           (chunk_of [x09; x00; x17] [Str "a"])
           {| ip_ := 0; stack_ := [Num 1]; globals_ := {[ "b" := Nil ]};
              cout := "" |}
           {| ip_ := 3; stack_ := [];
              globals_ := <[ "a" := Num 1 ]> {[ "b" := Nil ]};
              cout := "          [ 1 ]" +:+ newline
                      +:+ "          " +:+ newline |}) as H.
  cbn [globals_ cout] in H. apply H. vm_compute. reflexivity.
Defined.

Lemma run_returns_only_at_return_witness :
  exists opcode : byte,
    byte_at (chunk_of [x01; x04; x17] []) (3 - 1) = Some opcode /\
    Op_code_of_byte opcode = Some Op_code.return_.
Proof.
  apply (run_returns_only_at_return little_endian Op_code_of_byte
           silent_disassembler 5 (chunk_of [x01; x04; x17] []) fresh_VM
           {| ip_ := 3; stack_ := []; globals_ := ∅;
              cout := "          " +:+ newline
                      +:+ "          [ nil ]" +:+ newline
                      +:+ "          " +:+ newline |}).
  vm_compute. reflexivity.
Defined.

Lemma loop_with_operand_zero_never_ends_witness :
  exists vm' : VM,
    run little_endian Op_code_of_byte silent_disassembler 1000
      (chunk_of [x16; x00; x00; x17] []) fresh_VM
    = Still_running vm' /\
    ip_ vm' = 0 /\ stack_ vm' = [] /\ globals_ vm' = ∅.
Proof.
  apply (loop_with_operand_zero_never_ends little_endian Op_code_of_byte
           silent_disassembler (chunk_of [x16; x00; x00; x17] []) fresh_VM
           x00 x00 1000).
  - exists x16. split; reflexivity.
  - reflexivity.
  - reflexivity.
  - reflexivity.
Defined.

Lemma number_comparisons_exclude_each_other_witness :
  exists equal less greater : bool,
    (at_opcode Op_code_of_byte (chunk_of [x0c; x17] [])
       (VM_with_stack [Num 1; Num nan]) Op_code.equal ->
     iteration little_endian Op_code_of_byte silent_disassembler
       (chunk_of [x0c; x17] []) (VM_with_stack [Num 1; Num nan])
     = Ok break_ {| ip_ := 1; stack_ := [Bool equal]; globals_ := ∅;
                    cout := "          [ 1 ][ nan ]" +:+ newline |}) /\
    (at_opcode Op_code_of_byte (chunk_of [x0c; x17] [])
       (VM_with_stack [Num 1; Num nan]) Op_code.less ->
     iteration little_endian Op_code_of_byte silent_disassembler
       (chunk_of [x0c; x17] []) (VM_with_stack [Num 1; Num nan])
     = Ok break_ {| ip_ := 1; stack_ := [Bool less]; globals_ := ∅;
                    cout := "          [ 1 ][ nan ]" +:+ newline |}) /\
    (at_opcode Op_code_of_byte (chunk_of [x0c; x17] [])
       (VM_with_stack [Num 1; Num nan]) Op_code.greater ->
     iteration little_endian Op_code_of_byte silent_disassembler
       (chunk_of [x0c; x17] []) (VM_with_stack [Num 1; Num nan])
     = Ok break_ {| ip_ := 1; stack_ := [Bool greater]; globals_ := ∅;
                    cout := "          [ 1 ][ nan ]" +:+ newline |}) /\
    (equal = (1 =? nan)%float /\ less = (1 <? nan)%float
     /\ greater = (nan <? 1)%float) /\
    (equal = false /\ less = false /\ greater = false).
Proof.
  apply (number_comparisons_exclude_each_other little_endian Op_code_of_byte
           silent_disassembler (chunk_of [x0c; x17] [])
           (VM_with_stack [Num 1; Num nan]) [] 1%float nan).
  reflexivity.
Defined.

Lemma negate_and_not_twice_witness :
  exists vm1 vm2 : VM,
    iteration little_endian Op_code_of_byte silent_disassembler
      (chunk_of [x12; x12; x17] []) (VM_with_stack [Num 3])
    = Ok break_ vm1 /\
    iteration little_endian Op_code_of_byte silent_disassembler
      (chunk_of [x12; x12; x17] []) vm1
    = Ok break_ vm2 /\
    ip_ vm2 = 0 + 2 /\
    globals_ vm2 = ∅ /\
    stack_ vm2 = [Num 3].
Proof.
  apply (negate_and_not_twice little_endian Op_code_of_byte
           silent_disassembler (chunk_of [x12; x12; x17] [])
           (VM_with_stack [Num 3]) [] (Num 3) x12 x12 Op_code.negate);
    try reflexivity.
  left. repeat split; reflexivity.
Defined.

Lemma interpret_resets_only_the_instruction_pointer_witness :
  keeps_bound ({[ "a" := Num 1 ]} : gmap string Value) {[ "a" := Num 1 ]}
  /\ exists written : string,
       "          [ 1 ]" +:+ newline
       = "" +:+ "          " +:+ stack_text [Num 1] +:+ newline
         +:+ "" +:+ written.
Proof.
  pose proof (interpret_resets_only_the_instruction_pointer little_endian
           Op_code_of_byte silent_disassembler
           (fun _ => chunk_of [x17] []) 0 "return;"
           {| ip_ := 7; stack_ := [Num 1]; globals_ := {[ "a" := Num 1 ]};
              cout := "" |}
           {| ip_ := 1; stack_ := [Num 1]; globals_ := {[ "a" := Num 1 ]};
              cout := "          [ 1 ]" +:+ newline |}) as H.
  cbn [stack_ globals_ cout silent_disassembler] in H. apply H.
  vm_compute. reflexivity.
Defined.
